(** * sso_report.py: a shallow embedding and its verified properties

    The program builds two directory maps (users, groups with their sorted
    member lists), then walks accounts, permission sets and account
    assignments and writes one CSV record per resolved user.

    Python values are modelled as follows.
    - [str] is [string]; the byte-wise lexicographic order of the UTF-8
      encoding coincides with Python's code-point order.
    - The dicts [user_map] and [group_map] are [gmap string _]; subscripting
      a missing key raises [KeyError].
    - API response objects are records: a field read by subscripting is a
      required field, a field read with [.get(k, "")] is an [option].
    - The cloud is a read-only stub [Cloud] that answers every listing with a
      finite list (the drained paginator) and every describe call with a
      record. Transport failures of the client are outside the model.
    - A generator is modelled by the list it yields. The only effect of a
      generator body is the resolution of the identity center when the body
      starts, and the stub never changes, so draining a generator before the
      loop over it leaves every state of the run as it is.
    - Effects: a state and exception monad [M]. The state holds the two
      [functools.lru_cache] stores, per-API call logs for the two memoized
      calls, the records written to ./sso_report.csv and the lines printed.
      An exception leaves the state as it was when it was raised. *)

From stdpp Require Import gmap strings list sorting fin_maps pretty.
From Stdlib Require Import Lia.

#[local] Set Warnings "-clear-no-such-hyp".

(** ** Exceptions and the monad *)

Inductive exn : Type :=
| KeyError (key : string)
| IndexError
| ValueError.

Inductive result (A : Type) : Type :=
| Ok (a : A)
| Raise (e : exn).
Arguments Ok {A} a.
Arguments Raise {A} e.

(** ** API response shapes *)

Record Instance := {
  IdentityStoreId : string;
  InstanceArn : string }.

Record User := {
  UserId : string;
  UserName : string;
  user_DisplayName : string }.

Record Group := {
  GroupId : string;
  group_DisplayName : string;
  group_Description : option string }.

Record Account := {
  Id : string;
  Name : string }.

Record PermissionSet := {
  ps_Name : string;
  ps_Description : option string }.

Record Assignment := {
  PrincipalType : string;
  PrincipalId : string }.

(** The stubbed cloud: what each boto3 client call answers. Listing calls
    return the concatenation of all pages. *)
Record Cloud := {
  api_list_instances : list Instance;
  api_list_users : string → list User;
  api_list_groups : string → list Group;
  api_list_group_memberships : string → string → list string;
  api_list_accounts : list Account;
  api_list_permission_sets_provisioned_to_account : string → string → list string;
  api_describe_permission_set : string → string → PermissionSet;
  api_list_account_assignments : string → string → string → list Assignment }.

(** ** Program state *)

Definition csv_record : Type := list string.

Record state := {
  ic_cache : list (unit * (string * string));
  ps_cache : list (string * PermissionSet);
  list_instances_calls : nat;
  describe_calls : list (string * string);
  csv_opened : bool;
  csv_rows : list csv_record;
  stdout : list string }.

Definition initial_state : state := {|
  ic_cache := [];
  ps_cache := [];
  list_instances_calls := 0;
  describe_calls := [];
  csv_opened := false;
  csv_rows := [];
  stdout := [] |}.

Definition set_ic_cache (c : list (unit * (string * string))) (s : state) : state :=
  {| ic_cache := c; ps_cache := ps_cache s;
     list_instances_calls := list_instances_calls s;
     describe_calls := describe_calls s; csv_opened := csv_opened s;
     csv_rows := csv_rows s; stdout := stdout s |}.

Definition set_ps_cache (c : list (string * PermissionSet)) (s : state) : state :=
  {| ic_cache := ic_cache s; ps_cache := c;
     list_instances_calls := list_instances_calls s;
     describe_calls := describe_calls s; csv_opened := csv_opened s;
     csv_rows := csv_rows s; stdout := stdout s |}.

Definition M (A : Type) : Type := state → result A * state.

Definition M_ret {A} (a : A) : M A := λ s, (Ok a, s).

Definition M_bind {A B} (f : A → M B) (m : M A) : M B := λ s,
  match m s with
  | (Ok a, s') => f a s'
  | (Raise e, s') => (Raise e, s')
  end.

Global Instance M_mret : MRet M := @M_ret.
Global Instance M_mbind : MBind M := @M_bind.

(** [for x in l: body(x)] *)
Fixpoint for_each {A} (l : list A) (body : A → M unit) : M unit :=
  match l with
  | [] => mret ()
  | x :: l' => body x ;; for_each l' body
  end.

(** [acc = init; for x in l: acc = step(acc, x)] *)
Fixpoint for_fold {A B} (l : list A) (acc : B) (step : B → A → M B) : M B :=
  match l with
  | [] => mret acc
  | x :: l' => acc' ← step acc x; for_fold l' acc' step
  end.

(** [[f(x) for x in l]] *)
Fixpoint list_comprehension {A B} (l : list A) (f : A → M B) : M (list B) :=
  match l with
  | [] => mret []
  | x :: l' => y ← f x; ys ← list_comprehension l' f; mret (y :: ys)
  end.

(** ** Python primitives *)

(** [d[k]] on a dict. *)
Definition dict_getitem {V} (d : gmap string V) (k : string) : M V := λ s,
  match d !! k with
  | Some v => (Ok v, s)
  | None => (Raise (KeyError k), s)
  end.

(** [l[0]] on a list. *)
Definition list_getitem0 {A} (l : list A) : M A := λ s,
  match l with
  | x :: _ => (Ok x, s)
  | [] => (Raise IndexError, s)
  end.

Definition print (line : string) : M unit := λ s,
  (Ok (),
   {| ic_cache := ic_cache s; ps_cache := ps_cache s;
      list_instances_calls := list_instances_calls s;
      describe_calls := describe_calls s; csv_opened := csv_opened s;
      csv_rows := csv_rows s; stdout := stdout s ++ [line] |}).

(** [<] on [(str, str)] tuples: the first differing component decides. *)
Definition tuple_ltb (x y : string * string) : bool :=
  if decide (x.1 ≠ y.1) then String.ltb x.1 y.1
  else if decide (x.2 ≠ y.2) then String.ltb x.2 y.2
  else false.

(** [list.sort()] is a stable merge sort driven by [<]: when merging, the
    left element goes first unless the right one is strictly smaller. *)
Definition sort_le (x y : string * string) : Prop := ¬ tuple_ltb y x.

Global Instance sort_le_dec : RelDecision sort_le.
Proof. intros x y. unfold sort_le. apply _. Defined.

Definition list_sort (l : list (string * string)) : list (string * string) :=
  merge_sort sort_le l.

(** ** functools.lru_cache

    The decorator is applied bare, so [maxsize] is its default, 128. The
    store is kept most-recently-used first. *)

Definition maxsize : nat := 128.

Section lru_store.
Context {K V : Type} `{EqDecision K}.

Fixpoint cache_get (key : K) (c : list (K * V)) : option V :=
  match c with
  | [] => None
  | (k, v) :: c' => if decide (key = k) then Some v else cache_get key c'
  end.

(** A hit moves the entry to the most-recent end. *)
Definition cache_touch (key : K) (v : V) (c : list (K * V)) : list (K * V) :=
  (key, v) :: filter (λ kv, kv.1 ≠ key) c.

(** After a miss the result is stored, evicting the least recently used
    entry when the store is full. *)
Definition cache_store (key : K) (v : V) (c : list (K * V)) : list (K * V) :=
  match cache_get key c with
  | Some _ => c
  | None =>
      if decide (maxsize ≤ length c) then (key, v) :: removelast c
      else (key, v) :: c
  end.

Context (get : state → list (K * V)) (set : list (K * V) → state → state).

Definition lru_cache (user_function : K → M V) (key : K) : M V := λ s,
  match cache_get key (get s) with
  | Some v => (Ok v, set (cache_touch key v (get s)) s)
  | None =>
      match user_function key s with
      | (Ok v, s') => (Ok v, set (cache_store key v (get s')) s')
      | (Raise e, s') => (Raise e, s')
      end
  end.
End lru_store.

(** ** csv.DictWriter *)

Definition field_names : list string :=
  [ "ACCOUNT_ID"; "ACCOUNT_NAME"; "PERM_ARN"; "PERMISSION"; "PERM_DESC";
    "PRINCIPAL_TYPE"; "GROUP"; "GROUP_DESC"; "USER_ID"; "USER_NAME" ].

(** [rowdict.get(key, restval)] with the default [restval = ""]. *)
Fixpoint rowdict_get (key : string) (rowdict : list (string * string)) : string :=
  match rowdict with
  | [] => ""
  | (k, v) :: rest => if decide (key = k) then v else rowdict_get key rest
  end.

Definition dict_to_list (rowdict : list (string * string)) : csv_record :=
  (λ key, rowdict_get key rowdict) <$> field_names.

Definition append_record (r : csv_record) (s : state) : state :=
  {| ic_cache := ic_cache s; ps_cache := ps_cache s;
     list_instances_calls := list_instances_calls s;
     describe_calls := describe_calls s; csv_opened := csv_opened s;
     csv_rows := csv_rows s ++ [r]; stdout := stdout s |}.

(** [open("./sso_report.csv", "w", newline="")] creates or truncates. *)
Definition open_csv : M unit := λ s,
  (Ok (),
   {| ic_cache := ic_cache s; ps_cache := ps_cache s;
      list_instances_calls := list_instances_calls s;
      describe_calls := describe_calls s; csv_opened := true;
      csv_rows := []; stdout := stdout s |}).

Definition writeheader : M unit := λ s, (Ok (), append_record field_names s).

(** [writer.writerow(row)]: with the default [extrasaction="raise"], a key
    outside [fieldnames] is a [ValueError]. *)
Definition writerow (rowdict : list (string * string)) : M unit := λ s,
  if forallb (λ kv, bool_decide (kv.1 ∈ field_names)) rowdict
  then (Ok (), append_record (dict_to_list rowdict) s)
  else (Raise ValueError, s).

(** ** The program *)

Section program.
Context (cloud : Cloud).

(** [client.list_instances()["Instances"]] *)
Definition client_list_instances : M (list Instance) := λ s,
  (Ok (api_list_instances cloud),
   {| ic_cache := ic_cache s; ps_cache := ps_cache s;
      list_instances_calls := S (list_instances_calls s);
      describe_calls := describe_calls s; csv_opened := csv_opened s;
      csv_rows := csv_rows s; stdout := stdout s |}).

(** [client.describe_permission_set(InstanceArn=..., PermissionSetArn=...)["PermissionSet"]] *)
Definition client_describe_permission_set (instance_arn permission_set : string)
  : M PermissionSet := λ s,
  (Ok (api_describe_permission_set cloud instance_arn permission_set),
   {| ic_cache := ic_cache s; ps_cache := ps_cache s;
      list_instances_calls := list_instances_calls s;
      describe_calls := describe_calls s ++ [(instance_arn, permission_set)];
      csv_opened := csv_opened s; csv_rows := csv_rows s; stdout := stdout s |}).

(** Lines 87-98. *)
Definition get_identity_center_uncached (_ : unit) : M (string * string) :=
  instances ← client_list_instances;
  instance ← list_getitem0 instances;
  let identity_store_id := IdentityStoreId instance in
  let iam_id_center_arn := InstanceArn instance in
  mret (iam_id_center_arn, identity_store_id).

Definition get_identity_center : M (string * string) :=
  lru_cache ic_cache set_ic_cache get_identity_center_uncached ().

(** Lines 101-112. *)
Definition describe_permission_set_uncached (permission_set : string) : M PermissionSet :=
  '(iam_id_center_arn, identity_store_id) ← get_identity_center;
  client_describe_permission_set iam_id_center_arn permission_set.

Definition describe_permission_set : string → M PermissionSet :=
  lru_cache ps_cache set_ps_cache describe_permission_set_uncached.

(** Lines 115-200: the generators, drained. Each one resolves the identity
    center when its body starts, before the first page is requested. *)
Definition generate_group_memberships (group_id : string) : M (list string) :=
  '(iam_id_center_arn, identity_store_id) ← get_identity_center;
  mret (api_list_group_memberships cloud identity_store_id group_id).

Definition generate_users : M (list User) :=
  '(iam_id_center_arn, identity_store_id) ← get_identity_center;
  mret (api_list_users cloud identity_store_id).

Definition generate_groups : M (list Group) :=
  '(iam_id_center_arn, identity_store_id) ← get_identity_center;
  mret (api_list_groups cloud identity_store_id).

Definition generate_account_assignments (account_id account_assignment : string)
  : M (list Assignment) :=
  '(iam_id_center_arn, identity_store_id) ← get_identity_center;
  mret (api_list_account_assignments cloud account_id iam_id_center_arn account_assignment).

Definition generate_permission_sets_for_account (account_id : string) : M (list string) :=
  '(iam_id_center_arn, identity_store_id) ← get_identity_center;
  mret (api_list_permission_sets_provisioned_to_account cloud account_id iam_id_center_arn).

Definition generate_accounts : M (list (string * string)) :=
  mret ((λ account, (Id account, Name account)) <$> api_list_accounts cloud).

(** Lines 13-18. *)
Definition build_user_map (users : list User) : gmap string (string * string) :=
  foldl (λ user_map user, <[UserId user := (UserName user, user_DisplayName user)]> user_map)
        ∅ users.

(** Lines 20-28, one iteration. *)
Definition add_group (user_map : gmap string (string * string))
    (group_map : gmap string (string * string * list (string * string)))
    (group : Group) : M (gmap string (string * string * list (string * string))) :=
  let group_id := GroupId group in
  let group_name := group_DisplayName group in
  let group_desc := default "" (group_Description group) in
  user_ids ← generate_group_memberships group_id;
  members ← list_comprehension user_ids (dict_getitem user_map);
  let members := list_sort members in
  mret (<[group_id := (group_name, group_desc, members)]> group_map).

(** Lines 13-28. *)
Definition load_directory
  : M (gmap string (string * string) * gmap string (string * string * list (string * string))) :=
  users ← generate_users;
  let user_map := build_user_map users in
  groups ← generate_groups;
  group_map ← for_fold groups ∅ (add_group user_map);
  mret (user_map, group_map).

Definition user_row (account_id account_name permission_set perm_name perm_desc
    principal_type username user_displayname : string) : list (string * string) :=
  [ ("ACCOUNT_ID", account_id); ("ACCOUNT_NAME", account_name);
    ("PERM_ARN", permission_set); ("PERMISSION", perm_name);
    ("PERM_DESC", perm_desc); ("PRINCIPAL_TYPE", principal_type);
    ("USER_ID", username); ("USER_NAME", user_displayname) ].

Definition group_row (account_id account_name permission_set perm_name perm_desc
    principal_type group_name group_desc username user_displayname : string)
  : list (string * string) :=
  [ ("ACCOUNT_ID", account_id); ("ACCOUNT_NAME", account_name);
    ("PERM_ARN", permission_set); ("PERMISSION", perm_name);
    ("PERM_DESC", perm_desc); ("PRINCIPAL_TYPE", principal_type);
    ("GROUP", group_name); ("GROUP_DESC", group_desc);
    ("USER_ID", username); ("USER_NAME", user_displayname) ].

(** Lines 54-84: the body of the innermost loop. *)
Definition process_assignment (user_map : gmap string (string * string))
    (group_map : gmap string (string * string * list (string * string)))
    (account_id account_name permission_set perm_name perm_desc : string)
    (assignment : Assignment) : M unit :=
  let principal_type := PrincipalType assignment in
  let principal_id := PrincipalId assignment in
  (if decide (principal_type = "USER") then
     '(username, user_displayname) ← dict_getitem user_map principal_id;
     writerow (user_row account_id account_name permission_set perm_name perm_desc
                 principal_type username user_displayname)
   else mret ()) ;;
  (if decide (principal_type = "GROUP") then
     '(group_name, group_desc, members) ← dict_getitem group_map principal_id;
     for_each members (λ '(username, user_displayname),
       writerow (group_row account_id account_name permission_set perm_name perm_desc
                   principal_type group_name group_desc username user_displayname))
   else mret ()).

(** Lines 46-84: the body of the permission-set loop. *)
Definition process_permission_set (user_map : gmap string (string * string))
    (group_map : gmap string (string * string * list (string * string)))
    (account_id account_name permission_set : string) : M unit :=
  perm_info ← describe_permission_set permission_set;
  let perm_name := ps_Name perm_info in
  let perm_desc := default "" (ps_Description perm_info) in
  assignments ← generate_account_assignments account_id permission_set;
  for_each assignments
    (process_assignment user_map group_map account_id account_name
       permission_set perm_name perm_desc).

(** Lines 44-84: the body of the account loop. *)
Definition process_account (user_map : gmap string (string * string))
    (group_map : gmap string (string * string * list (string * string)))
    (account : string * string) : M unit :=
  let '(account_id, account_name) := account in
  print ("Processing account " +:+ account_id +:+ ": " +:+ account_name +:+ " ...") ;;
  permission_sets ← generate_permission_sets_for_account account_id;
  for_each permission_sets
    (process_permission_set user_map group_map account_id account_name).

(** Lines 29-84. *)
Definition write_report (user_map : gmap string (string * string))
    (group_map : gmap string (string * string * list (string * string))) : M unit :=
  open_csv ;;
  writeheader ;;
  accounts ← generate_accounts;
  for_each accounts (process_account user_map group_map).

Definition main : M unit :=
  '(user_map, group_map) ← load_directory;
  write_report user_map group_map.

End program.

(** ** Vocabulary of the statements *)

(** The state after [rows] have been appended to the report. *)
Definition append_records (rows : list csv_record) (s : state) : state :=
  {| ic_cache := ic_cache s; ps_cache := ps_cache s;
     list_instances_calls := list_instances_calls s;
     describe_calls := describe_calls s; csv_opened := csv_opened s;
     csv_rows := csv_rows s ++ rows; stdout := stdout s |}.

Fixpoint column_index (name : string) (names : list string) : option nat :=
  match names with
  | [] => None
  | n :: names' => if decide (name = n) then Some 0 else S <$> column_index name names'
  end.

(** The value a record holds under the header [name]. *)
Definition column (name : string) (r : csv_record) : option string :=
  i ← column_index name field_names; r !! i.

(** The record written for one member of a group assignment. *)
Definition group_record (account_id account_name permission_set perm_name perm_desc
    principal_type group_name group_desc : string) (member : string * string)
  : csv_record :=
  [ account_id; account_name; permission_set; perm_name; perm_desc;
    principal_type; group_name; group_desc; member.1; member.2 ].

(** The record written for a user assignment. *)
Definition user_record (account_id account_name permission_set perm_name perm_desc
    principal_type : string) (user : string * string) : csv_record :=
  [ account_id; account_name; permission_set; perm_name; perm_desc;
    principal_type; ""; ""; user.1; user.2 ].

(** The (USER_ID, USER_NAME) pair of a record. *)
Definition user_columns (r : csv_record) : option (string * string) :=
  u ← column "USER_ID" r; n ← column "USER_NAME" r; Some (u, n).

(** Ascending order on (username, displayname) pairs. *)
Definition pair_le (x y : string * string) : Prop :=
  String.ltb x.1 y.1 ∨ (x.1 = y.1 ∧ String.le x.2 y.2).

(** The identity-center cache holds the pair [p]. *)
Definition warm (p : string * string) (s : state) : Prop :=
  ic_cache s = [((), p)].

(** The state right after the first, successful, resolution of the identity
    center from a cold cache. *)
Definition resolved_state (p : string * string) (s : state) : state :=
  {| ic_cache := [((), p)]; ps_cache := ps_cache s;
     list_instances_calls := S (list_instances_calls s);
     describe_calls := describe_calls s; csv_opened := csv_opened s;
     csv_rows := csv_rows s; stdout := stdout s |}.

(** [vs] are the user-map entries of the ids [ids], in order. *)
Definition resolves (user_map : gmap string (string * string))
    (ids : list string) (vs : list (string * string)) : Prop :=
  Forall2 (λ k v, user_map !! k = Some v) ids vs.

(** Every entry of the group map holds the sorted resolution of the
    membership listing of its group. *)
Definition members_of (cloud : Cloud) (identity_store_id : string)
    (user_map : gmap string (string * string))
    (group_map : gmap string (string * string * list (string * string))) : Prop :=
  ∀ gid gn gd ms, group_map !! gid = Some (gn, gd, ms) →
    ∃ vs, resolves user_map (api_list_group_memberships cloud identity_store_id gid) vs
          ∧ ms = list_sort vs.

(** How many times [x] occurs in [l]. *)
Definition occurrences {A} `{EqDecision A} (x : A) (l : list A) : nat :=
  length (filter (λ y, y = x) l).

(** A data record has ten fields, and its USER_ID and USER_NAME fields hold
    the username and the display name of one listed directory user. *)
Definition row_ok (users : list User) (row : csv_record) : Prop :=
  length row = 10
  ∧ ∃ user, user ∈ users
            ∧ column "USER_ID" row = Some (UserName user)
            ∧ column "USER_NAME" row = Some (user_DisplayName user).

(** The report is the header followed by well-formed data records. *)
Definition report_ok (users : list User) (s : state) : Prop :=
  ∃ data, csv_rows s = field_names :: data ∧ Forall (row_ok users) data.

(** The permission-set ARNs the assignment walk looks up. *)
Definition provisioned_arns (cloud : Cloud) (instance_arn : string) : list string :=
  account ← api_list_accounts cloud;
  api_list_permission_sets_provisioned_to_account cloud (Id account) instance_arn.

(** How many describe calls the run has issued for [permission_set]. *)
Definition describe_count (permission_set : string) (s : state) : nat :=
  length (filter (λ c, c.2 = permission_set) (describe_calls s)).

(** With no eviction so far, the permission-set cache holds exactly the
    ARNs described so far, each described once, all of them among the ARNs
    of [universe] and all for the instance [instance_arn]. *)
Definition cache_inv (instance_arn : string) (universe : list string) (s : state) : Prop :=
  NoDup (ps_cache s).*1
  ∧ (∀ ps, ps ∈ (ps_cache s).*1 ↔ (instance_arn, ps) ∈ describe_calls s)
  ∧ NoDup (describe_calls s)
  ∧ ∀ c, c ∈ describe_calls s → c.1 = instance_arn ∧ c.2 ∈ universe.

(** ** Concrete inputs *)

Definition alice : User :=
  {| UserId := "u1"; UserName := "alice"; user_DisplayName := "Alice A" |}.
Definition bob : User :=
  {| UserId := "u2"; UserName := "bob"; user_DisplayName := "Bob B" |}.

Definition admins_assignment : Assignment :=
  {| PrincipalType := "GROUP"; PrincipalId := "g1" |}.
Definition bob_assignment : Assignment :=
  {| PrincipalType := "USER"; PrincipalId := "u2" |}.
Definition stranger_assignment : Assignment :=
  {| PrincipalType := "USER"; PrincipalId := "u9" |}.
Definition role_assignment : Assignment :=
  {| PrincipalType := "ROLE"; PrincipalId := "r1" |}.

(** The example of the specification: account 111 (Prod), permission set
    ps-1 (Admin), group g1 (Admins) with members alice and bob. *)
Definition prod_cloud : Cloud := {|
  api_list_instances := [ {| IdentityStoreId := "d-1"; InstanceArn := "arn:instance" |} ];
  api_list_users := λ _, [ bob; alice ];
  api_list_groups := λ _,
    [ {| GroupId := "g1"; group_DisplayName := "Admins"; group_Description := None |} ];
  api_list_group_memberships := λ _ group_id,
    if decide (group_id = "g1") then [ "u2"; "u1" ] else [];
  api_list_accounts := [ {| Id := "111"; Name := "Prod" |} ];
  api_list_permission_sets_provisioned_to_account := λ _ _, [ "ps-1" ];
  api_describe_permission_set := λ _ _,
    {| ps_Name := "Admin"; ps_Description := Some "full access" |};
  api_list_account_assignments := λ _ _ _, [ admins_assignment; bob_assignment ] |}.

Definition prod_user_map : gmap string (string * string) :=
  build_user_map [ bob; alice ].

Definition prod_group_map : gmap string (string * string * list (string * string)) :=
  <["g1" := ("Admins", "", [ ("alice", "Alice A"); ("bob", "Bob B") ])]> ∅.

(** The same directory, but group g1 also lists the id u7, which the user
    listing does not return. *)
Definition dangling_cloud : Cloud := {|
  api_list_instances := api_list_instances prod_cloud;
  api_list_users := api_list_users prod_cloud;
  api_list_groups := api_list_groups prod_cloud;
  api_list_group_memberships := λ _ group_id,
    if decide (group_id = "g1") then [ "u2"; "u7"; "u1" ] else [];
  api_list_accounts := api_list_accounts prod_cloud;
  api_list_permission_sets_provisioned_to_account :=
    api_list_permission_sets_provisioned_to_account prod_cloud;
  api_describe_permission_set := api_describe_permission_set prod_cloud;
  api_list_account_assignments := api_list_account_assignments prod_cloud |}.

(** An organization without any identity-center instance. *)
Definition no_instance_cloud : Cloud := {|
  api_list_instances := [];
  api_list_users := api_list_users prod_cloud;
  api_list_groups := api_list_groups prod_cloud;
  api_list_group_memberships := api_list_group_memberships prod_cloud;
  api_list_accounts := api_list_accounts prod_cloud;
  api_list_permission_sets_provisioned_to_account :=
    api_list_permission_sets_provisioned_to_account prod_cloud;
  api_describe_permission_set := api_describe_permission_set prod_cloud;
  api_list_account_assignments := api_list_account_assignments prod_cloud |}.

(** Two directory users with different ids but the same username and
    display name, both members of group g1. *)
Definition twins_cloud : Cloud := {|
  api_list_instances := api_list_instances prod_cloud;
  api_list_users := λ _,
    [ alice; {| UserId := "u3"; UserName := "alice"; user_DisplayName := "Alice A" |} ];
  api_list_groups := api_list_groups prod_cloud;
  api_list_group_memberships := λ _ group_id,
    if decide (group_id = "g1") then [ "u1"; "u3" ] else [];
  api_list_accounts := api_list_accounts prod_cloud;
  api_list_permission_sets_provisioned_to_account :=
    api_list_permission_sets_provisioned_to_account prod_cloud;
  api_describe_permission_set := api_describe_permission_set prod_cloud;
  api_list_account_assignments := api_list_account_assignments prod_cloud |}.

(** Group g1 lists bob twice. *)
Definition repeated_cloud : Cloud := {|
  api_list_instances := api_list_instances prod_cloud;
  api_list_users := api_list_users prod_cloud;
  api_list_groups := api_list_groups prod_cloud;
  api_list_group_memberships := λ _ group_id,
    if decide (group_id = "g1") then [ "u2"; "u1"; "u2" ] else [];
  api_list_accounts := api_list_accounts prod_cloud;
  api_list_permission_sets_provisioned_to_account :=
    api_list_permission_sets_provisioned_to_account prod_cloud;
  api_describe_permission_set := api_describe_permission_set prod_cloud;
  api_list_account_assignments := api_list_account_assignments prod_cloud |}.

Definition twins_user_map : gmap string (string * string) :=
  build_user_map (api_list_users twins_cloud "d-1").

Definition twins_group_map : gmap string (string * string * list (string * string)) :=
  <["g1" := ("Admins", "", [ ("alice", "Alice A"); ("alice", "Alice A") ])]> ∅.

Definition repeated_group_map : gmap string (string * string * list (string * string)) :=
  <["g1" := ("Admins", "", [ ("alice", "Alice A"); ("bob", "Bob B"); ("bob", "Bob B") ])]> ∅.

(** One account with 129 distinct permission sets, ps-0 to ps-128, whose
    listing ends with ps-0 once more; no users, groups or assignments. *)
Definition overflow_cloud : Cloud := {|
  api_list_instances := api_list_instances prod_cloud;
  api_list_users := λ _, [];
  api_list_groups := λ _, [];
  api_list_group_memberships := λ _ _, [];
  api_list_accounts := api_list_accounts prod_cloud;
  api_list_permission_sets_provisioned_to_account := λ _ _,
    ((λ n : nat, "ps-" +:+ pretty n) <$> seq 0 129) ++ [ "ps-0" ];
  api_describe_permission_set := api_describe_permission_set prod_cloud;
  api_list_account_assignments := λ _ _ _, [] |}.

(** ** The report as a function of the cloud *)

(** The user-map entries of the listed ids that have one, in order. *)
Definition resolve_all (user_map : gmap string (string * string))
    (ids : list string) : list (string * string) :=
  omap (λ k, user_map !! k) ids.

(** The group map of lines 19-28 when every member id resolves. *)
Definition build_group_map (cloud : Cloud) (identity_store_id : string)
    (user_map : gmap string (string * string)) (groups : list Group)
  : gmap string (string * string * list (string * string)) :=
  foldl (λ group_map group,
           <[GroupId group :=
               (group_DisplayName group, default "" (group_Description group),
                list_sort (resolve_all user_map
                   (api_list_group_memberships cloud identity_store_id (GroupId group))))]>
             group_map)
        ∅ groups.

(** The principal of the assignment is a key of the map its type selects. *)
Definition assignment_resolves (user_map : gmap string (string * string))
    (group_map : gmap string (string * string * list (string * string)))
    (a : Assignment) : Prop :=
  (PrincipalType a = "USER" → is_Some (user_map !! PrincipalId a))
  ∧ (PrincipalType a = "GROUP" → is_Some (group_map !! PrincipalId a)).

(** The records of one assignment; none when its principal does not
    resolve or its type is neither USER nor GROUP. *)
Definition assignment_rows (user_map : gmap string (string * string))
    (group_map : gmap string (string * string * list (string * string)))
    (account_id account_name permission_set perm_name perm_desc : string)
    (a : Assignment) : list csv_record :=
  if decide (PrincipalType a = "USER") then
    match user_map !! PrincipalId a with
    | Some user =>
        [ user_record account_id account_name permission_set perm_name perm_desc
            "USER" user ]
    | None => []
    end
  else if decide (PrincipalType a = "GROUP") then
    match group_map !! PrincipalId a with
    | Some (group_name, group_desc, members) =>
        group_record account_id account_name permission_set perm_name perm_desc
          "GROUP" group_name group_desc <$> members
    | None => []
    end
  else [].

Definition permission_set_rows (cloud : Cloud) (instance_arn : string)
    (user_map : gmap string (string * string))
    (group_map : gmap string (string * string * list (string * string)))
    (account_id account_name permission_set : string) : list csv_record :=
  let perm_info := api_describe_permission_set cloud instance_arn permission_set in
  a ← api_list_account_assignments cloud account_id instance_arn permission_set;
  assignment_rows user_map group_map account_id account_name permission_set
    (ps_Name perm_info) (default "" (ps_Description perm_info)) a.

Definition account_rows (cloud : Cloud) (instance_arn : string)
    (user_map : gmap string (string * string))
    (group_map : gmap string (string * string * list (string * string)))
    (account : string * string) : list csv_record :=
  permission_set ←
    api_list_permission_sets_provisioned_to_account cloud account.1 instance_arn;
  permission_set_rows cloud instance_arn user_map group_map
    account.1 account.2 permission_set.

(** The data records of a complete report: accounts, then their permission
    sets, then the assignments of each, all in listing order. *)
Definition report_rows (cloud : Cloud) (instance_arn : string)
    (user_map : gmap string (string * string))
    (group_map : gmap string (string * string * list (string * string)))
  : list csv_record :=
  account ← ((λ account, (Id account, Name account)) <$> api_list_accounts cloud);
  account_rows cloud instance_arn user_map group_map account.

(** Every assignment the walk meets resolves. *)
Definition all_resolve (cloud : Cloud) (instance_arn : string)
    (user_map : gmap string (string * string))
    (group_map : gmap string (string * string * list (string * string))) : Prop :=
  ∀ account permission_set a,
    account ∈ api_list_accounts cloud →
    permission_set ∈
      api_list_permission_sets_provisioned_to_account cloud (Id account) instance_arn →
    a ∈ api_list_account_assignments cloud (Id account) instance_arn permission_set →
    assignment_resolves user_map group_map a.

(** Every cached description is the one the API gives for its ARN. *)
Definition coherent (cloud : Cloud) (instance_arn : string) (s : state) : Prop :=
  ∀ k v, (k, v) ∈ ps_cache s → v = api_describe_permission_set cloud instance_arn k.

(** What holds between any two steps of the assignment walk. *)
Definition walk_inv (cloud : Cloud) (p : string * string) (s : state) : Prop :=
  warm p s ∧ coherent cloud p.1 s.

(** From a state with [I], [m] keeps [I] and only appends to the report:
    all of [expected] when it returns, which it does exactly when [good]
    holds; otherwise a prefix of [expected], ending in a KeyError. *)
Definition emits (I : state → Prop) (m : M unit) (expected : list csv_record)
    (good : Prop) : Prop :=
  ∀ s, I s →
    I (m s).2
    ∧ ∃ rows, csv_rows (m s).2 = csv_rows s ++ rows
        ∧ match (m s).1 with
          | Ok _ => rows = expected ∧ good
          | Raise e => rows `prefix_of` expected ∧ ¬ good ∧ ∃ k, e = KeyError k
          end.

(** From a state with [I], [m] returns [a], keeps [I] and leaves the report
    as it is. *)
Definition silent {A} (I : state → Prop) (m : M A) (a : A) : Prop :=
  ∀ s, I s → ∃ s', m s = (Ok a, s') ∧ I s' ∧ csv_rows s' = csv_rows s.

(** The walk invariant holds, every cached ARN has been described, and the
    describe calls of [log] have been issued. *)
Definition logged (cloud : Cloud) (instance_arn identity_store_id : string)
    (log : list (string * string)) (s : state) : Prop :=
  walk_inv cloud (instance_arn, identity_store_id) s
  ∧ (∀ k, k ∈ (ps_cache s).*1 → (instance_arn, k) ∈ describe_calls s)
  ∧ ∀ c, c ∈ log → c ∈ describe_calls s.

(** The progress line printed for an account. *)
Definition progress_line (account : string * string) : string :=
  "Processing account " +:+ account.1 +:+ ": " +:+ account.2 +:+ " ...".

(** A group whose principal id is not a group id of the directory. *)
Definition ghost_group_assignment : Assignment :=
  {| PrincipalType := "GROUP"; PrincipalId := "g9" |}.


(** The example directory in an organization without accounts. *)
Definition empty_org_cloud : Cloud := {|
  api_list_instances := api_list_instances prod_cloud;
  api_list_users := api_list_users prod_cloud;
  api_list_groups := api_list_groups prod_cloud;
  api_list_group_memberships := api_list_group_memberships prod_cloud;
  api_list_accounts := [];
  api_list_permission_sets_provisioned_to_account :=
    api_list_permission_sets_provisioned_to_account prod_cloud;
  api_describe_permission_set := api_describe_permission_set prod_cloud;
  api_list_account_assignments := api_list_account_assignments prod_cloud |}.

(** ** Monad and loop lemmas *)

Lemma bind_Ok {A B} (m : M A) (f : A → M B) s a s' :
  m s = (Ok a, s') → (m ≫= f) s = f a s'.
Proof. intros H. unfold mbind, M_mbind, M_bind. by rewrite H. Qed.

Lemma bind_Raise {A B} (m : M A) (f : A → M B) s e s' :
  m s = (Raise e, s') → (m ≫= f) s = (Raise e, s').
Proof. intros H. unfold mbind, M_mbind, M_bind. by rewrite H. Qed.

Lemma for_each_app {A} (l1 l2 : list A) body s s1 :
  for_each l1 body s = (Ok (), s1) →
  for_each (l1 ++ l2) body s = for_each l2 body s1.
Proof.
  revert s. induction l1 as [|x l1 IH]; intros s H; simpl in *.
  - by inversion H.
  - unfold mbind, M_mbind, M_bind in *.
    destruct (body x s) as [[[]|e] s2]; [by apply IH | done].
Qed.

Lemma for_each_Raise {A} (l1 l2 : list A) x body s s1 e s2 :
  for_each l1 body s = (Ok (), s1) →
  body x s1 = (Raise e, s2) →
  for_each (l1 ++ x :: l2) body s = (Raise e, s2).
Proof.
  intros H1 H2. rewrite (for_each_app _ _ _ _ _ H1). simpl.
  by apply bind_Raise.
Qed.

Lemma for_each_skip {A} (l1 l2 : list A) x body :
  (∀ s, body x s = (Ok (), s)) →
  ∀ s, for_each (l1 ++ x :: l2) body s = for_each (l1 ++ l2) body s.
Proof.
  intros Hx. induction l1 as [|y l1 IH]; intros s; simpl.
  - by rewrite (bind_Ok _ _ _ _ _ (Hx s)).
  - unfold mbind, M_mbind, M_bind.
    destruct (body y s) as [[[]|e] s2]; [apply IH | done].
Qed.

Lemma append_records_nil s : append_records [] s = s.
Proof. destruct s. unfold append_records; simpl. by rewrite app_nil_r. Qed.

Lemma append_records_cons r rows s :
  append_records rows (append_record r s) = append_records (r :: rows) s.
Proof. unfold append_records, append_record; simpl. by rewrite <- app_assoc. Qed.

(** ** The row emitter *)

Lemma writerow_user_row aid an ps pn pd pt u d s :
  writerow (user_row aid an ps pn pd pt u d) s
  = (Ok (), append_record (user_record aid an ps pn pd pt (u, d)) s).
Proof. reflexivity. Qed.

Lemma writerow_group_row aid an ps pn pd pt gn gd u d s :
  writerow (group_row aid an ps pn pd pt gn gd u d) s
  = (Ok (), append_record (group_record aid an ps pn pd pt gn gd (u, d)) s).
Proof. reflexivity. Qed.

Lemma for_each_group_rows aid an ps pn pd pt gn gd members s :
  for_each members (λ '(username, user_displayname),
    writerow (group_row aid an ps pn pd pt gn gd username user_displayname)) s
  = (Ok (), append_records (group_record aid an ps pn pd pt gn gd <$> members) s).
Proof.
  revert s. induction members as [|[u d] members IH]; intros s; simpl.
  - by rewrite append_records_nil.
  - erewrite bind_Ok by apply writerow_group_row.
    by rewrite IH, append_records_cons.
Qed.

Lemma process_assignment_group um gm aid an ps pn pd a gn gd members s :
  PrincipalType a = "GROUP" →
  gm !! PrincipalId a = Some (gn, gd, members) →
  process_assignment um gm aid an ps pn pd a s
  = (Ok (), append_records (group_record aid an ps pn pd "GROUP" gn gd <$> members) s).
Proof.
  intros Ht Hg. unfold process_assignment. rewrite Ht.
  destruct (decide ("GROUP" = "USER")) as [?|_]; [done|].
  rewrite (bind_Ok _ _ s () s) by done.
  destruct (decide ("GROUP" = "GROUP")) as [_|?]; [|done].
  erewrite bind_Ok; [|unfold dict_getitem; by rewrite Hg].
  apply for_each_group_rows.
Qed.

Lemma process_assignment_user um gm aid an ps pn pd a u d s :
  PrincipalType a = "USER" →
  um !! PrincipalId a = Some (u, d) →
  process_assignment um gm aid an ps pn pd a s
  = (Ok (), append_records [user_record aid an ps pn pd "USER" (u, d)] s).
Proof.
  intros Ht Hu. unfold process_assignment. rewrite Ht.
  destruct (decide ("USER" = "USER")) as [_|?]; [|done].
  destruct (decide ("USER" = "GROUP")) as [?|_]; [done|].
  erewrite (bind_Ok _ _ s ()); [reflexivity|].
  erewrite bind_Ok; [|unfold dict_getitem; by rewrite Hu].
  apply writerow_user_row.
Qed.

Lemma process_assignment_user_missing um gm aid an ps pn pd a s :
  PrincipalType a = "USER" →
  um !! PrincipalId a = None →
  process_assignment um gm aid an ps pn pd a s = (Raise (KeyError (PrincipalId a)), s).
Proof.
  intros Ht Hu. unfold process_assignment. rewrite Ht.
  destruct (decide ("USER" = "USER")) as [_|?]; [|done].
  apply bind_Raise. apply bind_Raise. unfold dict_getitem. by rewrite Hu.
Qed.

Lemma process_assignment_other um gm aid an ps pn pd a s :
  PrincipalType a ≠ "USER" →
  PrincipalType a ≠ "GROUP" →
  process_assignment um gm aid an ps pn pd a s = (Ok (), s).
Proof.
  intros Hu Hg. unfold process_assignment.
  destruct (decide (PrincipalType a = "USER")) as [?|_]; [done|].
  destruct (decide (PrincipalType a = "GROUP")) as [?|_]; [done|].
  done.
Qed.

(** C1. A GROUP assignment to a group whose member list has |M| entries
    appends exactly |M| records, the i-th one for the i-th member, all with
    the group's name and description; a USER assignment appends exactly one
    record, whose GROUP and GROUP_DESC columns are empty. *)
Theorem group_fan_out_user_single_row um gm aid an ps pn pd a s :
  (∀ gn gd members,
     PrincipalType a = "GROUP" →
     gm !! PrincipalId a = Some (gn, gd, members) →
     ∃ rows,
       process_assignment um gm aid an ps pn pd a s = (Ok (), append_records rows s)
       ∧ length rows = length members
       ∧ ∀ i m, members !! i = Some m →
           ∃ r, rows !! i = Some r
                ∧ column "GROUP" r = Some gn ∧ column "GROUP_DESC" r = Some gd
                ∧ user_columns r = Some m)
  ∧ (∀ u d,
       PrincipalType a = "USER" →
       um !! PrincipalId a = Some (u, d) →
       ∃ r,
         process_assignment um gm aid an ps pn pd a s = (Ok (), append_records [r] s)
         ∧ column "GROUP" r = Some "" ∧ column "GROUP_DESC" r = Some "").
Proof.
  split.
  - intros gn gd members Ht Hg.
    exists (group_record aid an ps pn pd "GROUP" gn gd <$> members).
    split; [by apply process_assignment_group|].
    split; [by rewrite length_fmap|].
    intros i [u d] Hi. eexists. rewrite list_lookup_fmap, Hi. done.
  - intros u d Ht Hu. eexists. split; [by apply process_assignment_user|]. done.
Qed.

Lemma group_fan_out_user_single_row_witness :
  (∃ rows,
     process_assignment prod_user_map prod_group_map "111" "Prod" "ps-1" "Admin"
       "full access" admins_assignment initial_state
     = (Ok (), append_records rows initial_state)
     ∧ length rows = 2)
  ∧ (∃ r,
       process_assignment prod_user_map prod_group_map "111" "Prod" "ps-1" "Admin"
         "full access" bob_assignment initial_state
       = (Ok (), append_records [r] initial_state)
       ∧ column "GROUP" r = Some "").
Proof.
  split.
  - destruct (proj1 (group_fan_out_user_single_row prod_user_map prod_group_map
        "111" "Prod" "ps-1" "Admin" "full access" admins_assignment initial_state)
        "Admins" "" [ ("alice", "Alice A"); ("bob", "Bob B") ]
        eq_refl eq_refl) as (rows & Hrun & Hlen & _).
    exists rows. split; [exact Hrun | exact Hlen].
  - destruct (proj2 (group_fan_out_user_single_row prod_user_map prod_group_map
        "111" "Prod" "ps-1" "Admin" "full access" bob_assignment initial_state)
        "bob" "Bob B" eq_refl eq_refl) as (r & Hrun & Hg & _).
    exists r. split; [exact Hrun | exact Hg].
Defined.

Lemma group_record_columns aid an ps pn pd pt gn gd m1 m2 c :
  column c (group_record aid an ps pn pd pt gn gd m1)
  ≠ column c (group_record aid an ps pn pd pt gn gd m2) →
  c = "USER_ID" ∨ c = "USER_NAME".
Proof.
  unfold column, field_names, group_record. simpl.
  repeat (case_decide; [subst; simpl; first [tauto | congruence]|]).
  simpl. congruence.
Qed.

(** C2. All records written for one GROUP assignment agree on ACCOUNT_ID,
    ACCOUNT_NAME, PERM_ARN, PERMISSION, PERM_DESC, GROUP and GROUP_DESC, and
    the only headers under which two of them can hold different values are
    USER_ID and USER_NAME. *)
Theorem group_rows_share_assignment_columns um gm aid an ps pn pd a gn gd members s :
  PrincipalType a = "GROUP" →
  gm !! PrincipalId a = Some (gn, gd, members) →
  ∃ rows,
    process_assignment um gm aid an ps pn pd a s = (Ok (), append_records rows s)
    ∧ ∀ r1 r2, r1 ∈ rows → r2 ∈ rows →
        column "ACCOUNT_ID" r1 = Some aid ∧ column "ACCOUNT_ID" r2 = Some aid
        ∧ column "ACCOUNT_NAME" r1 = Some an ∧ column "ACCOUNT_NAME" r2 = Some an
        ∧ column "PERM_ARN" r1 = Some ps ∧ column "PERM_ARN" r2 = Some ps
        ∧ column "PERMISSION" r1 = Some pn ∧ column "PERMISSION" r2 = Some pn
        ∧ column "PERM_DESC" r1 = Some pd ∧ column "PERM_DESC" r2 = Some pd
        ∧ column "GROUP" r1 = Some gn ∧ column "GROUP" r2 = Some gn
        ∧ column "GROUP_DESC" r1 = Some gd ∧ column "GROUP_DESC" r2 = Some gd
        ∧ ∀ c, column c r1 ≠ column c r2 → c = "USER_ID" ∨ c = "USER_NAME".
Proof.
  intros Ht Hg. eexists. split; [by apply process_assignment_group|].
  intros r1 r2 [m1 [-> _]]%list_elem_of_fmap [m2 [-> _]]%list_elem_of_fmap.
  repeat (split; [reflexivity|]).
  apply group_record_columns.
Qed.

Lemma group_rows_share_assignment_columns_witness :
  ∃ rows,
    process_assignment prod_user_map prod_group_map "111" "Prod" "ps-1" "Admin"
      "full access" admins_assignment initial_state
    = (Ok (), append_records rows initial_state)
    ∧ ∀ r1 r2, r1 ∈ rows → r2 ∈ rows →
        column "PERM_ARN" r1 = Some "ps-1" ∧ column "PERM_ARN" r2 = Some "ps-1".
Proof.
  destruct (group_rows_share_assignment_columns prod_user_map prod_group_map
     "111" "Prod" "ps-1" "Admin" "full access" admins_assignment
     "Admins" "" [ ("alice", "Alice A"); ("bob", "Bob B") ] initial_state
     eq_refl eq_refl) as (rows & Hrun & Hrows).
  exists rows. split; [exact Hrun|].
  intros r1 r2 H1 H2. destruct (Hrows r1 r2 H1 H2) as (_ & _ & _ & _ & Ha & Hb & _).
  split; [exact Ha | exact Hb].
Defined.

(** C7. A USER assignment whose principal id is not a key of the user map
    raises KeyError for that id and writes nothing; the enclosing loop stops
    there, keeping what earlier assignments wrote and never reaching the
    later ones. *)
Theorem user_assignment_unknown_principal_aborts um gm aid an ps pn pd a s :
  PrincipalType a = "USER" →
  um !! PrincipalId a = None →
  process_assignment um gm aid an ps pn pd a s = (Raise (KeyError (PrincipalId a)), s)
  ∧ ∀ earlier later s0,
      for_each earlier (process_assignment um gm aid an ps pn pd) s0 = (Ok (), s) →
      for_each (earlier ++ a :: later) (process_assignment um gm aid an ps pn pd) s0
      = (Raise (KeyError (PrincipalId a)), s).
Proof.
  intros Ht Hu.
  pose proof (process_assignment_user_missing um gm aid an ps pn pd a s Ht Hu) as Hbody.
  split; [exact Hbody|].
  intros earlier later s0 Hpre. by eapply for_each_Raise.
Qed.

Lemma user_assignment_unknown_principal_aborts_witness :
  process_assignment prod_user_map prod_group_map "111" "Prod" "ps-1" "Admin"
    "full access" stranger_assignment initial_state
  = (Raise (KeyError "u9"), initial_state).
Proof.
  exact (proj1 (user_assignment_unknown_principal_aborts prod_user_map prod_group_map
    "111" "Prod" "ps-1" "Admin" "full access" stranger_assignment initial_state
    eq_refl eq_refl)).
Defined.

(** C9. An assignment whose principal type is neither USER nor GROUP writes
    nothing and raises nothing, and the loop goes on: the run of the loop is
    the same as if the assignment were not listed. *)
Theorem other_principal_type_skipped um gm aid an ps pn pd a :
  PrincipalType a ≠ "USER" →
  PrincipalType a ≠ "GROUP" →
  (∀ s, process_assignment um gm aid an ps pn pd a s = (Ok (), s))
  ∧ ∀ earlier later s,
      for_each (earlier ++ a :: later) (process_assignment um gm aid an ps pn pd) s
      = for_each (earlier ++ later) (process_assignment um gm aid an ps pn pd) s.
Proof.
  intros Hu Hg.
  assert (∀ s, process_assignment um gm aid an ps pn pd a s = (Ok (), s)) as Hbody
    by (intros s; by apply process_assignment_other).
  split; [exact Hbody|].
  intros earlier later. by apply for_each_skip.
Qed.

Lemma other_principal_type_skipped_witness :
  process_assignment prod_user_map prod_group_map "111" "Prod" "ps-1" "Admin"
    "full access" role_assignment initial_state
  = (Ok (), initial_state).
Proof.
  apply (other_principal_type_skipped prod_user_map prod_group_map
    "111" "Prod" "ps-1" "Admin" "full access" role_assignment); simpl; congruence.
Defined.

(** ** The identity-center resolver *)

Section resolver.
Context (cloud : Cloud).

Lemma get_identity_center_cold s i rest :
  ic_cache s = [] →
  api_list_instances cloud = i :: rest →
  get_identity_center cloud s
  = (Ok (InstanceArn i, IdentityStoreId i),
     {| ic_cache := [((), (InstanceArn i, IdentityStoreId i))];
        ps_cache := ps_cache s;
        list_instances_calls := S (list_instances_calls s);
        describe_calls := describe_calls s; csv_opened := csv_opened s;
        csv_rows := csv_rows s; stdout := stdout s |}).
Proof.
  intros Hc Hi. unfold get_identity_center, lru_cache. rewrite Hc. simpl.
  unfold get_identity_center_uncached.
  erewrite bind_Ok by reflexivity.
  rewrite Hi. simpl. by rewrite Hc.
Qed.

Lemma get_identity_center_none s :
  ic_cache s = [] →
  api_list_instances cloud = [] →
  get_identity_center cloud s
  = (Raise IndexError,
     {| ic_cache := []; ps_cache := ps_cache s;
        list_instances_calls := S (list_instances_calls s);
        describe_calls := describe_calls s; csv_opened := csv_opened s;
        csv_rows := csv_rows s; stdout := stdout s |}).
Proof.
  intros Hc Hi. unfold get_identity_center, lru_cache. rewrite Hc. simpl.
  unfold get_identity_center_uncached.
  erewrite bind_Ok by reflexivity.
  rewrite Hi. simpl. by rewrite Hc.
Qed.

Lemma get_identity_center_warm s p :
  ic_cache s = [((), p)] →
  get_identity_center cloud s = (Ok p, s).
Proof.
  intros Hc. unfold get_identity_center, lru_cache. rewrite Hc. simpl.
  f_equal. destruct s; simpl in *. by subst.
Qed.

End resolver.

(** ** Directory load *)

Lemma list_comprehension_getitem (um : gmap string (string * string)) ids s :
  (∃ vs, resolves um ids vs
         ∧ list_comprehension ids (dict_getitem um) s = (Ok vs, s))
  ∨ (∃ k, k ∈ ids ∧ um !! k = None
          ∧ list_comprehension ids (dict_getitem um) s = (Raise (KeyError k), s)).
Proof.
  induction ids as [|k ids IH]; simpl.
  - left. exists []. split; [constructor | done].
  - destruct (um !! k) as [v|] eqn:Hk.
    + assert (dict_getitem um k s = (Ok v, s)) as Hget
        by (unfold dict_getitem; by rewrite Hk).
      rewrite (bind_Ok _ _ _ _ _ Hget).
      destruct IH as [(vs & Hvs & Hrun)|(k' & Hin & Hnone & Hrun)].
      * left. exists (v :: vs). split; [by constructor|].
        by rewrite (bind_Ok _ _ _ _ _ Hrun).
      * right. exists k'. split; [by right|]. split; [done|].
        by apply bind_Raise.
    + right. exists k. split; [by left|]. split; [done|].
      apply bind_Raise. unfold dict_getitem. by rewrite Hk.
Qed.

Lemma resolves_elem (um : gmap string (string * string)) ids vs k :
  resolves um ids vs → k ∈ ids → is_Some (um !! k).
Proof.
  induction 1 as [|k' v ids vs Hk _ IH]; intros Hin.
  - by inversion Hin.
  - apply elem_of_cons in Hin as [->|Hin]; [by exists v | by apply IH].
Qed.

Lemma resolves_range (um : gmap string (string * string)) ids vs v :
  resolves um ids vs → v ∈ vs → ∃ k, k ∈ ids ∧ um !! k = Some v.
Proof.
  induction 1 as [|k' v' ids vs Hk _ IH]; intros Hin.
  - by inversion Hin.
  - apply elem_of_cons in Hin as [->|Hin].
    + exists k'. split; [by left | done].
    + destruct (IH Hin) as (k & Hk' & Hv). exists k. split; [by right | done].
Qed.

Section directory.
Context (cloud : Cloud) (arn store : string).
Context (um : gmap string (string * string)).

Lemma generate_group_memberships_warm gid s :
  warm (arn, store) s →
  generate_group_memberships cloud gid s
  = (Ok (api_list_group_memberships cloud store gid), s).
Proof.
  intros Hw. unfold generate_group_memberships.
  by rewrite (bind_Ok _ _ _ _ _ (get_identity_center_warm cloud s _ Hw)).
Qed.

Lemma add_group_run gm g s :
  warm (arn, store) s →
  (∃ vs, resolves um (api_list_group_memberships cloud store (GroupId g)) vs
         ∧ add_group cloud um gm g s
           = (Ok (<[GroupId g := (group_DisplayName g,
                                  default "" (group_Description g),
                                  list_sort vs)]> gm), s))
  ∨ (∃ k, k ∈ api_list_group_memberships cloud store (GroupId g) ∧ um !! k = None
          ∧ add_group cloud um gm g s = (Raise (KeyError k), s)).
Proof.
  intros Hw. unfold add_group.
  rewrite (bind_Ok _ _ _ _ _ (generate_group_memberships_warm _ _ Hw)).
  destruct (list_comprehension_getitem um
              (api_list_group_memberships cloud store (GroupId g)) s)
    as [(vs & Hvs & Hrun)|(k & Hin & Hnone & Hrun)].
  - left. exists vs. split; [done|]. by rewrite (bind_Ok _ _ _ _ _ Hrun).
  - right. exists k. split; [done|]. split; [done|]. by apply bind_Raise.
Qed.

Lemma for_fold_add_group groups gm s :
  warm (arn, store) s →
  members_of cloud store um gm →
  (∃ gm', for_fold groups gm (add_group cloud um) s = (Ok gm', s)
          ∧ members_of cloud store um gm'
          ∧ ∀ g k, g ∈ groups →
              k ∈ api_list_group_memberships cloud store (GroupId g) →
              is_Some (um !! k))
  ∨ (∃ k, um !! k = None
          ∧ (∃ g, g ∈ groups ∧ k ∈ api_list_group_memberships cloud store (GroupId g))
          ∧ for_fold groups gm (add_group cloud um) s = (Raise (KeyError k), s)).
Proof.
  intros Hw. revert gm. induction groups as [|g groups IH]; intros gm Hgm; simpl.
  - left. exists gm. split; [done|]. split; [done|]. intros g k Hg. by inversion Hg.
  - destruct (add_group_run gm g s Hw) as [(vs & Hvs & Hrun)|(k & Hin & Hnone & Hrun)].
    + rewrite (bind_Ok _ _ _ _ _ Hrun).
      destruct (IH (<[GroupId g := (group_DisplayName g,
                                   default "" (group_Description g),
                                   list_sort vs)]> gm))
        as [(gm' & Hfold & Hgm' & Hall)|(k & Hnone & (g' & Hg' & Hk) & Hfold)].
      * intros gid gn gd ms Hlook.
        destruct (decide (GroupId g = gid)) as [<-|Hne].
        -- rewrite lookup_insert_eq in Hlook. inversion Hlook; subst. by exists vs.
        -- rewrite lookup_insert_ne in Hlook by done. by eapply Hgm.
      * left. exists gm'. split; [done|]. split; [done|].
        intros g' k [->|Hg']%elem_of_cons Hk; [|by eapply Hall].
        by eapply resolves_elem.
      * right. exists k. split; [done|]. split; [exists g'; split; [by right|done]|done].
    + right. exists k. split; [done|]. split; [exists g; split; [by left|done]|].
      by apply bind_Raise.
Qed.

End directory.

Section load.
Context (cloud : Cloud).

Lemma load_directory_run s i rest :
  ic_cache s = [] →
  api_list_instances cloud = i :: rest →
  let store := IdentityStoreId i in
  let um := build_user_map (api_list_users cloud store) in
  let s1 := resolved_state (InstanceArn i, store) s in
  (∃ gm, load_directory cloud s = (Ok (um, gm), s1)
         ∧ members_of cloud store um gm
         ∧ ∀ g k, g ∈ api_list_groups cloud store →
             k ∈ api_list_group_memberships cloud store (GroupId g) →
             is_Some (um !! k))
  ∨ (∃ k, um !! k = None
          ∧ (∃ g, g ∈ api_list_groups cloud store
                  ∧ k ∈ api_list_group_memberships cloud store (GroupId g))
          ∧ load_directory cloud s = (Raise (KeyError k), s1)).
Proof.
  intros Hc Hi store um s1.
  assert (warm (InstanceArn i, store) s1) as Hw by done.
  assert (generate_users cloud s = (Ok (api_list_users cloud store), s1)) as Hu.
  { unfold generate_users.
    by rewrite (bind_Ok _ _ _ _ _ (get_identity_center_cold cloud s i rest Hc Hi)). }
  assert (generate_groups cloud s1 = (Ok (api_list_groups cloud store), s1)) as Hg.
  { unfold generate_groups.
    by rewrite (bind_Ok _ _ _ _ _ (get_identity_center_warm cloud s1 _ Hw)). }
  unfold load_directory.
  rewrite (bind_Ok _ _ _ _ _ Hu), (bind_Ok _ _ _ _ _ Hg). fold um.
  destruct (for_fold_add_group cloud (InstanceArn i) store um
              (api_list_groups cloud store) ∅ s1 Hw)
    as [(gm & Hfold & Hgm & Hall)|(k & Hnone & Hex & Hfold)].
  - intros gid gn gd ms Hlook. by rewrite lookup_empty in Hlook.
  - left. exists gm. split; [by rewrite (bind_Ok _ _ _ _ _ Hfold)|done].
  - right. exists k. split; [done|]. split; [done|]. by apply bind_Raise.
Qed.

Lemma load_directory_no_instance s :
  ic_cache s = [] →
  api_list_instances cloud = [] →
  ∃ s', load_directory cloud s = (Raise IndexError, s')
        ∧ csv_opened s' = csv_opened s ∧ csv_rows s' = csv_rows s.
Proof.
  intros Hc Hi. eexists. split.
  - unfold load_directory. apply bind_Raise. unfold generate_users.
    apply bind_Raise. by apply get_identity_center_none.
  - done.
Qed.

End load.

(** C6. When some listed group has a member id that is not a key of the user
    map, the run raises KeyError for an id missing from the user map, and it
    does so before ./sso_report.csv is opened: no record, not even the
    header, has been written. *)
Theorem unknown_member_aborts_before_any_row cloud i rest g k :
  api_list_instances cloud = i :: rest →
  g ∈ api_list_groups cloud (IdentityStoreId i) →
  k ∈ api_list_group_memberships cloud (IdentityStoreId i) (GroupId g) →
  build_user_map (api_list_users cloud (IdentityStoreId i)) !! k = None →
  ∃ k' s',
    main cloud initial_state = (Raise (KeyError k'), s')
    ∧ build_user_map (api_list_users cloud (IdentityStoreId i)) !! k' = None
    ∧ csv_opened s' = false ∧ csv_rows s' = [].
Proof.
  intros Hi Hg Hk Hnone.
  destruct (load_directory_run cloud initial_state i rest eq_refl Hi)
    as [(gm & _ & _ & Hall)|(k' & Hnone' & _ & Hrun)].
  - destruct (Hall g k Hg Hk) as [v Hv]. congruence.
  - exists k', (resolved_state (InstanceArn i, IdentityStoreId i) initial_state).
    split; [|split; [exact Hnone'|split; reflexivity]].
    unfold main. by apply bind_Raise.
Qed.

Lemma unknown_member_aborts_before_any_row_witness :
  ∃ k' s',
    main dangling_cloud initial_state = (Raise (KeyError k'), s')
    ∧ build_user_map (api_list_users dangling_cloud "d-1") !! k' = None
    ∧ csv_opened s' = false ∧ csv_rows s' = [].
Proof.
  apply (unknown_member_aborts_before_any_row dangling_cloud
           {| IdentityStoreId := "d-1"; InstanceArn := "arn:instance" |} []
           {| GroupId := "g1"; group_DisplayName := "Admins";
              group_Description := None |} "u7").
  - reflexivity.
  - simpl. left.
  - simpl. right. left.
  - vm_compute. reflexivity.
Defined.

(** C8. From a cold cache the resolver returns the instance arn and the
    identity-store id of the first listed instance, whatever follows it in
    the listing; when the listing is empty it raises IndexError, and so does
    the whole run, before the report file is opened. *)
Theorem identity_center_first_instance_or_index_error cloud s :
  ic_cache s = [] →
  (∀ i rest, api_list_instances cloud = i :: rest →
     ∃ s', get_identity_center cloud s = (Ok (InstanceArn i, IdentityStoreId i), s'))
  ∧ (api_list_instances cloud = [] →
     (∃ s', get_identity_center cloud s = (Raise IndexError, s'))
     ∧ ∃ s', main cloud s = (Raise IndexError, s')
             ∧ csv_opened s' = csv_opened s ∧ csv_rows s' = csv_rows s).
Proof.
  intros Hc. split.
  - intros i rest Hi. eexists. by apply (get_identity_center_cold cloud s i rest).
  - intros Hi. split.
    + eexists. by apply get_identity_center_none.
    + destruct (load_directory_no_instance cloud s Hc Hi) as (s' & Hrun & Ho & Hr).
      exists s'. split; [|done]. unfold main. by apply bind_Raise.
Qed.

Lemma identity_center_first_instance_or_index_error_witness :
  (∃ s', get_identity_center prod_cloud initial_state = (Ok ("arn:instance", "d-1"), s'))
  ∧ (∃ s', main no_instance_cloud initial_state = (Raise IndexError, s')
           ∧ csv_opened s' = false ∧ csv_rows s' = []).
Proof.
  split.
  - apply (proj1 (identity_center_first_instance_or_index_error prod_cloud
                    initial_state eq_refl)
             {| IdentityStoreId := "d-1"; InstanceArn := "arn:instance" |} []).
    reflexivity.
  - apply (proj2 (identity_center_first_instance_or_index_error no_instance_cloud
                    initial_state eq_refl)).
    reflexivity.
Defined.

(** ** The order of member lists *)

Lemma string_compare_refl a : (a ?= a)%string = Eq.
Proof.
  pose proof (String.compare_antisym a a) as H.
  destruct (a ?= a)%string; simpl in H; congruence.
Qed.

Lemma string_ltb_iff a b : String.ltb a b ↔ String.le a b ∧ a ≠ b.
Proof.
  unfold String.le, String.ltb, String.leb.
  destruct (a ?= b)%string eqn:H; simpl.
  - apply String.compare_eq_iff in H. naive_solver.
  - split; [intros _; split; [done|] | done].
    intros ->. rewrite string_compare_refl in H. done.
  - naive_solver.
Qed.

Lemma string_not_ltb a b : ¬ String.ltb a b ↔ String.le b a.
Proof.
  rewrite string_ltb_iff. split.
  - intros H. destruct (total String.le a b) as [Hab|Hba]; [|done].
    destruct (decide (a = b)) as [->|Hne]; [done|]. by destruct H.
  - intros Hba [Hab Hne]. apply Hne. by apply (anti_symm String.le).
Qed.

Lemma sort_le_pair_le x y : sort_le x y ↔ pair_le x y.
Proof.
  unfold sort_le, pair_le, tuple_ltb. destruct x as [x1 x2], y as [y1 y2]; simpl.
  destruct (decide (y1 ≠ x1)) as [Hne|Heq].
  - rewrite string_not_ltb, string_ltb_iff. naive_solver.
  - apply dec_stable in Heq as ->.
    destruct (decide (y2 ≠ x2)) as [Hne|Heq].
    + rewrite string_not_ltb, string_ltb_iff. naive_solver.
    + apply dec_stable in Heq as ->. rewrite string_ltb_iff. naive_solver.
Qed.

Global Instance pair_le_trans : Transitive pair_le.
Proof.
  intros [x1 x2] [y1 y2] [z1 z2]. unfold pair_le; simpl.
  rewrite !string_ltb_iff.
  intros [[Hxy Hne]|[-> Hxy]] [[Hyz Hne']|[-> Hyz]].
  - left. split; [by etrans|]. intros ->. apply Hne. by apply (anti_symm String.le).
  - left. done.
  - left. done.
  - right. split; [done | by etrans].
Qed.

Global Instance sort_le_total : Total sort_le.
Proof.
  intros [x1 x2] [y1 y2]. rewrite !sort_le_pair_le. unfold pair_le; simpl.
  rewrite !string_ltb_iff.
  destruct (decide (x1 = y1)) as [->|Hne].
  - destruct (total String.le x2 y2); naive_solver.
  - destruct (total String.le x1 y1); naive_solver.
Qed.

Lemma list_sort_sorted l : StronglySorted pair_le (list_sort l).
Proof.
  apply Sorted_StronglySorted; [apply _|].
  unfold list_sort.
  pose proof (Sorted_merge_sort sort_le l) as H.
  induction H as [|x l' Hs IH Hhd]; constructor; [done|].
  destruct Hhd; constructor. by apply sort_le_pair_le.
Qed.

Lemma list_sort_perm l : list_sort l ≡ₚ l.
Proof. apply merge_sort_Permutation. Qed.

Lemma load_directory_Ok cloud um gm s1 :
  load_directory cloud initial_state = (Ok (um, gm), s1) →
  ∃ i rest,
    api_list_instances cloud = i :: rest
    ∧ um = build_user_map (api_list_users cloud (IdentityStoreId i))
    ∧ s1 = resolved_state (InstanceArn i, IdentityStoreId i) initial_state
    ∧ members_of cloud (IdentityStoreId i) um gm.
Proof.
  intros Hrun. destruct (api_list_instances cloud) as [|i rest] eqn:Hi.
  - destruct (load_directory_no_instance cloud initial_state eq_refl Hi)
      as (s' & Hrun' & _). congruence.
  - exists i, rest. split; [done|].
    destruct (load_directory_run cloud initial_state i rest eq_refl Hi)
      as [(gm' & Hrun' & Hgm & _)|(k & _ & _ & Hrun')]; [|congruence].
    rewrite Hrun in Hrun'. inversion Hrun'; subst. done.
Qed.

(** C5. Every member list of the group map that the directory load returns
    is in ascending order of (username, displayname), and the records written
    for a GROUP assignment carry, in the order written, exactly the pairs of
    that list. *)
Theorem member_lists_sorted_rows_in_order cloud um gm s1 gid gn gd ms :
  load_directory cloud initial_state = (Ok (um, gm), s1) →
  gm !! gid = Some (gn, gd, ms) →
  StronglySorted pair_le ms
  ∧ ∀ aid an ps pn pd a s,
      PrincipalType a = "GROUP" → PrincipalId a = gid →
      ∃ rows,
        process_assignment um gm aid an ps pn pd a s = (Ok (), append_records rows s)
        ∧ user_columns <$> rows = Some <$> ms.
Proof.
  intros Hload Hlook.
  destruct (load_directory_Ok cloud um gm s1 Hload) as (i & rest & _ & _ & _ & Hgm).
  destruct (Hgm gid gn gd ms Hlook) as (vs & _ & ->).
  split; [apply list_sort_sorted|].
  intros aid an ps pn pd a s Ht Hid. subst gid.
  eexists. split; [by eapply process_assignment_group|].
  rewrite <- list_fmap_compose. apply list_fmap_ext. by intros _ [u d] _.
Qed.

Lemma member_lists_sorted_rows_in_order_witness :
  ∃ um gm s1 ms,
    load_directory prod_cloud initial_state = (Ok (um, gm), s1)
    ∧ gm !! "g1" = Some ("Admins", "", ms)
    ∧ StronglySorted pair_le ms.
Proof.
  exists prod_user_map, prod_group_map,
    (resolved_state ("arn:instance", "d-1") initial_state),
    [ ("alice", "Alice A"); ("bob", "Bob B") ].
  assert (load_directory prod_cloud initial_state
          = (Ok (prod_user_map, prod_group_map),
             resolved_state ("arn:instance", "d-1") initial_state)) as Hload
    by (vm_compute; reflexivity).
  assert (prod_group_map !! "g1"
          = Some ("Admins", "", [ ("alice", "Alice A"); ("bob", "Bob B") ])) as Hlook
    by (vm_compute; reflexivity).
  split; [exact Hload|]. split; [exact Hlook|].
  exact (proj1 (member_lists_sorted_rows_in_order prod_cloud _ _ _ _ _ _ _ Hload Hlook)).
Defined.

(** ** Multiplicity of members *)

Lemma occurrences_resolves (um : gmap string (string * string)) ids vs t :
  resolves um ids vs →
  occurrences t vs = length (filter (λ id, um !! id = Some t) ids).
Proof.
  unfold occurrences. induction 1 as [|k v ids vs Hk _ IH]; [done|].
  rewrite !filter_cons. rewrite Hk.
  destruct (decide (v = t)) as [->|Hne].
  - rewrite decide_True by done. simpl. by rewrite IH.
  - rewrite decide_False by congruence. done.
Qed.

Lemma length_filter_le {A} (P Q : A → Prop)
    `{∀ x, Decision (P x)} `{∀ x, Decision (Q x)} (l : list A) :
  (∀ x, x ∈ l → P x → Q x) →
  length (filter P l) ≤ length (filter Q l).
Proof.
  induction l as [|x l IH]; intros HPQ; [done|].
  rewrite !filter_cons.
  assert (length (filter P l) ≤ length (filter Q l)) as Hle
    by (apply IH; intros y Hy; apply HPQ; by right).
  destruct (decide (P x)) as [HP|HP].
  - rewrite decide_True by (apply HPQ; [by left | done]). simpl. lia.
  - destruct (decide (Q x)); simpl; lia.
Qed.

Lemma occurrences_permutation {A} `{EqDecision A} (x : A) l1 l2 :
  l1 ≡ₚ l2 → occurrences x l1 = occurrences x l2.
Proof. intros H. unfold occurrences. by rewrite H. Qed.

Lemma occurrences_Some {A} `{EqDecision A} (x : A) l :
  occurrences (Some x) (Some <$> l) = occurrences x l.
Proof.
  unfold occurrences. induction l as [|y l IH]; [done|].
  rewrite fmap_cons, !filter_cons.
  destruct (decide (y = x)) as [->|Hne].
  - rewrite decide_True by done. simpl. by rewrite IH.
  - rewrite decide_False by congruence. done.
Qed.

(** C10, as the code has it. Members are never deduplicated: the member list
    of a group is as long as its membership listing, and a pair occurs in it
    once for every listed id that resolves to that pair. Hence a user whose
    id is listed k times has their pair at least k times in the list, exactly
    k times when no other listed id resolves to the same pair, and a GROUP
    assignment to the group writes as many records with that pair as the
    list holds. *)
Theorem members_kept_with_multiplicity cloud i rest um gm s1 gid gn gd ms uid t :
  api_list_instances cloud = i :: rest →
  load_directory cloud initial_state = (Ok (um, gm), s1) →
  gm !! gid = Some (gn, gd, ms) →
  um !! uid = Some t →
  let listing := api_list_group_memberships cloud (IdentityStoreId i) gid in
  length ms = length listing
  ∧ occurrences t ms = length (filter (λ id, um !! id = Some t) listing)
  ∧ occurrences uid listing ≤ occurrences t ms
  ∧ ((∀ id, id ∈ listing → um !! id = Some t → id = uid) →
     occurrences t ms = occurrences uid listing)
  ∧ ∀ aid an ps pn pd a s,
      PrincipalType a = "GROUP" → PrincipalId a = gid →
      ∃ rows,
        process_assignment um gm aid an ps pn pd a s = (Ok (), append_records rows s)
        ∧ occurrences (Some t) (user_columns <$> rows) = occurrences t ms.
Proof.
  intros Hi Hload Hlook Ht listing.
  destruct (load_directory_Ok cloud um gm s1 Hload) as (i' & rest' & Hi' & _ & _ & Hgm).
  assert (i' = i) as -> by congruence.
  destruct (Hgm gid gn gd ms Hlook) as (vs & Hvs & ->). fold listing in Hvs.
  assert (occurrences t (list_sort vs)
          = length (filter (λ id, um !! id = Some t) listing)) as Hocc.
  { rewrite (occurrences_permutation t _ _ (list_sort_perm vs)).
    by apply occurrences_resolves. }
  split; [|split; [exact Hocc|split; [|split]]].
  - rewrite (list_sort_perm vs). symmetry. by eapply Forall2_length.
  - rewrite Hocc. unfold occurrences. apply length_filter_le. by intros id _ ->.
  - intros Huniq. rewrite Hocc. unfold occurrences. apply Nat.le_antisymm.
    + apply length_filter_le. intros id Hin Hid. by apply Huniq.
    + apply length_filter_le. by intros id _ ->.
  - intros aid an ps pn pd a s Hty Hid. subst gid.
    eexists. split; [by eapply process_assignment_group|].
    rewrite <- list_fmap_compose.
    rewrite (list_fmap_ext _ Some (list_sort vs)) by (by intros _ [u d] _).
    apply occurrences_Some.
Qed.

Lemma members_kept_with_multiplicity_witness :
  load_directory repeated_cloud initial_state
  = (Ok (prod_user_map, repeated_group_map),
     resolved_state ("arn:instance", "d-1") initial_state)
  ∧ occurrences "u2" (api_list_group_memberships repeated_cloud "d-1" "g1") = 2
  ∧ occurrences ("bob", "Bob B")
      [ ("alice", "Alice A"); ("bob", "Bob B"); ("bob", "Bob B") ] = 2.
Proof.
  assert (load_directory repeated_cloud initial_state
          = (Ok (prod_user_map, repeated_group_map),
             resolved_state ("arn:instance", "d-1") initial_state)) as Hload
    by (vm_compute; reflexivity).
  assert (repeated_group_map !! "g1"
          = Some ("Admins", "",
                  [ ("alice", "Alice A"); ("bob", "Bob B"); ("bob", "Bob B") ])) as Hlook
    by (vm_compute; reflexivity).
  assert (prod_user_map !! "u2" = Some ("bob", "Bob B")) as Hu
    by (vm_compute; reflexivity).
  destruct (members_kept_with_multiplicity repeated_cloud
              {| IdentityStoreId := "d-1"; InstanceArn := "arn:instance" |} []
              _ _ _ _ _ _ _ "u2" _ eq_refl Hload Hlook Hu)
    as (_ & _ & _ & Hexact & _).
  split; [exact Hload|]. split; [reflexivity|].
  rewrite Hexact; [reflexivity|].
  intros id Hin Hid. simpl in Hin.
  apply elem_of_cons in Hin as [->|Hin]; [reflexivity|].
  apply elem_of_cons in Hin as [->|Hin]; [vm_compute in Hid; discriminate|].
  apply elem_of_cons in Hin as [->|Hin]; [reflexivity|].
  by apply elem_of_nil in Hin.
Defined.

(** C10 as stated fails when two listed ids resolve to the same pair: u1 is
    listed once for g1, yet its pair occurs twice in the member list. *)
Lemma twins_share_a_pair :
  load_directory twins_cloud initial_state
  = (Ok (twins_user_map, twins_group_map),
     resolved_state ("arn:instance", "d-1") initial_state)
  ∧ twins_group_map !! "g1"
    = Some ("Admins", "", [ ("alice", "Alice A"); ("alice", "Alice A") ])
  ∧ twins_user_map !! "u1" = Some ("alice", "Alice A")
  ∧ occurrences "u1" (api_list_group_memberships twins_cloud "d-1" "g1") = 1
  ∧ occurrences ("alice", "Alice A")
      [ ("alice", "Alice A"); ("alice", "Alice A") ]
    ≠ occurrences "u1" (api_list_group_memberships twins_cloud "d-1" "g1").
Proof. repeat split; vm_compute; (reflexivity || discriminate). Qed.

(** ** Invariants of the assignment walk *)

Lemma bind_invariant {A B} (I : state → Prop) (m : M A) (f : A → M B) s :
  I (m s).2 →
  (∀ a s', m s = (Ok a, s') → I s' → I (f a s').2) →
  I ((m ≫= f) s).2.
Proof.
  intros Hm Hf. unfold mbind, M_mbind, M_bind.
  destruct (m s) as [[a|e] s'] eqn:Hrun; simpl in *; [by apply Hf | done].
Qed.

Lemma for_each_invariant {A} (I : state → Prop) (l : list A) body :
  (∀ x s, x ∈ l → I s → I (body x s).2) →
  ∀ s, I s → I (for_each l body s).2.
Proof.
  induction l as [|x l IH]; intros Hbody s Hs; simpl; [done|].
  apply bind_invariant.
  - apply Hbody; [by left | done].
  - intros _ s' _ Hs'. apply IH; [|done].
    intros y s0 Hy. apply Hbody. by right.
Qed.

Section walk.
Context (cloud : Cloud) (arn store : string).

Lemma describe_permission_set_warm ps s :
  warm (arn, store) s →
  describe_permission_set cloud ps s
  = match cache_get ps (ps_cache s) with
    | Some v => (Ok v, set_ps_cache (cache_touch ps v (ps_cache s)) s)
    | None =>
        let v := api_describe_permission_set cloud arn ps in
        (Ok v,
         {| ic_cache := ic_cache s;
            ps_cache := cache_store ps v (ps_cache s);
            list_instances_calls := list_instances_calls s;
            describe_calls := describe_calls s ++ [(arn, ps)];
            csv_opened := csv_opened s; csv_rows := csv_rows s;
            stdout := stdout s |})
    end.
Proof.
  intros Hw. unfold describe_permission_set, lru_cache.
  destruct (cache_get ps (ps_cache s)) as [v|] eqn:Hget; [done|].
  unfold describe_permission_set_uncached.
  rewrite (bind_Ok _ _ _ _ _ (get_identity_center_warm cloud s _ Hw)).
  reflexivity.
Qed.

Lemma generate_permission_sets_for_account_warm account_id s :
  warm (arn, store) s →
  generate_permission_sets_for_account cloud account_id s
  = (Ok (api_list_permission_sets_provisioned_to_account cloud account_id arn), s).
Proof.
  intros Hw. unfold generate_permission_sets_for_account.
  by rewrite (bind_Ok _ _ _ _ _ (get_identity_center_warm cloud s _ Hw)).
Qed.

Lemma generate_account_assignments_warm account_id ps s :
  warm (arn, store) s →
  generate_account_assignments cloud account_id ps s
  = (Ok (api_list_account_assignments cloud account_id arn ps), s).
Proof.
  intros Hw. unfold generate_account_assignments.
  by rewrite (bind_Ok _ _ _ _ _ (get_identity_center_warm cloud s _ Hw)).
Qed.

(** A property of the state that holds when the walk starts, implies a warm
    resolver cache, and is kept by printing, by describing a provisioned
    permission set and by processing an assignment, holds when the walk
    ends, be it normally or by an exception. *)
Lemma walk_invariant (I : state → Prop) um gm :
  (∀ s, I s → warm (arn, store) s) →
  (∀ s line, I s → I (print line s).2) →
  (∀ s ps, I s → ps ∈ provisioned_arns cloud arn →
     I (describe_permission_set cloud ps s).2) →
  (∀ s aid an ps pn pd a, I s → I (process_assignment um gm aid an ps pn pd a s).2) →
  ∀ s, I s →
    I (for_each ((λ account, (Id account, Name account)) <$> api_list_accounts cloud)
         (process_account cloud um gm) s).2.
Proof.
  intros Hwarm Hprint Hdescribe Hassign.
  apply for_each_invariant.
  intros [aid an] s [account [Heq Hacc]]%list_elem_of_fmap Hs.
  inversion Heq; subst aid an. unfold process_account.
  apply bind_invariant; [by apply Hprint|].
  intros _ s1 _ Hs1.
  rewrite (bind_Ok _ _ _ _ _
             (generate_permission_sets_for_account_warm _ _ (Hwarm _ Hs1))).
  apply for_each_invariant; [|done].
  intros ps s2 Hps Hs2. unfold process_permission_set.
  assert (ps ∈ provisioned_arns cloud arn) as Hin.
  { unfold provisioned_arns. apply list_elem_of_bind. by exists account. }
  apply bind_invariant; [by apply Hdescribe|].
  intros info s3 _ Hs3.
  rewrite (bind_Ok _ _ _ _ _
             (generate_account_assignments_warm _ _ _ (Hwarm _ Hs3))).
  apply for_each_invariant; [|done].
  intros a s4 _ Hs4. by apply Hassign.
Qed.

End walk.

(** ** The report as a whole *)

Lemma build_user_map_acc users (acc : gmap string (string * string)) k v :
  foldl (λ user_map user,
           <[UserId user := (UserName user, user_DisplayName user)]> user_map)
        acc users !! k = Some v →
  acc !! k = Some v
  ∨ ∃ user, user ∈ users ∧ UserId user = k
            ∧ v = (UserName user, user_DisplayName user).
Proof.
  revert acc. induction users as [|user users IH]; intros acc Hlook; simpl in *.
  - by left.
  - destruct (IH _ Hlook) as [Hacc|(user' & Hin & Hid & Hv)].
    + destruct (decide (UserId user = k)) as [Heq|Hne].
      * rewrite <- Heq, lookup_insert_eq in Hacc. inversion Hacc.
        right. exists user. split; [by left | done].
      * rewrite lookup_insert_ne in Hacc by done. by left.
    + right. exists user'. split; [by right | done].
Qed.

Lemma build_user_map_lookup users k v :
  build_user_map users !! k = Some v →
  ∃ user, user ∈ users ∧ UserId user = k
          ∧ v = (UserName user, user_DisplayName user).
Proof.
  intros Hlook. destruct (build_user_map_acc users ∅ k v Hlook) as [Hempty|H]; [|done].
  by rewrite lookup_empty in Hempty.
Qed.

Lemma process_assignment_group_missing um gm aid an ps pn pd a s :
  PrincipalType a = "GROUP" →
  gm !! PrincipalId a = None →
  process_assignment um gm aid an ps pn pd a s = (Raise (KeyError (PrincipalId a)), s).
Proof.
  intros Ht Hg. unfold process_assignment. rewrite Ht.
  destruct (decide ("GROUP" = "USER")) as [?|_]; [done|].
  rewrite (bind_Ok _ _ s () s) by done.
  destruct (decide ("GROUP" = "GROUP")) as [_|?]; [|done].
  apply bind_Raise. unfold dict_getitem. by rewrite Hg.
Qed.

(** Whatever the assignment, processing it only appends records. *)
Lemma process_assignment_appends um gm aid an ps pn pd a s :
  ∃ rows,
    (process_assignment um gm aid an ps pn pd a s).2 = append_records rows s
    ∧ ∀ row, row ∈ rows →
        (∃ v, um !! PrincipalId a = Some v
              ∧ row = user_record aid an ps pn pd "USER" v)
        ∨ (∃ gn gd ms m, gm !! PrincipalId a = Some (gn, gd, ms) ∧ m ∈ ms
                         ∧ row = group_record aid an ps pn pd "GROUP" gn gd m).
Proof.
  destruct (decide (PrincipalType a = "USER")) as [Hu|Hu].
  - destruct (um !! PrincipalId a) as [[u d]|] eqn:Hlook.
    + exists [user_record aid an ps pn pd "USER" (u, d)].
      rewrite (process_assignment_user um gm aid an ps pn pd a u d s Hu Hlook).
      split; [done|]. intros row ->%list_elem_of_singleton. left. by exists (u, d).
    + exists []. rewrite (process_assignment_user_missing _ _ _ _ _ _ _ _ _ Hu Hlook).
      split; [by rewrite append_records_nil|]. intros row Hin. by inversion Hin.
  - destruct (decide (PrincipalType a = "GROUP")) as [Hg|Hg].
    + destruct (gm !! PrincipalId a) as [[[gn gd] ms]|] eqn:Hlook.
      * exists (group_record aid an ps pn pd "GROUP" gn gd <$> ms).
        rewrite (process_assignment_group um gm aid an ps pn pd a gn gd ms s Hg Hlook).
        split; [done|]. intros row [m [-> Hm]]%list_elem_of_fmap.
        right. by exists gn, gd, ms, m.
      * exists []. rewrite (process_assignment_group_missing _ _ _ _ _ _ _ _ _ Hg Hlook).
        split; [by rewrite append_records_nil|]. intros row Hin. by inversion Hin.
    + exists []. rewrite (process_assignment_other _ _ _ _ _ _ _ _ _ Hu Hg).
      split; [by rewrite append_records_nil|]. intros row Hin. by inversion Hin.
Qed.

Section report.
Context (cloud : Cloud) (arn store : string) (users : list User).

Lemma member_listed gm gid gn gd ms m :
  members_of cloud store (build_user_map users) gm →
  gm !! gid = Some (gn, gd, ms) → m ∈ ms →
  ∃ user, user ∈ users ∧ m = (UserName user, user_DisplayName user).
Proof.
  intros Hgm Hlook Hm. destruct (Hgm _ _ _ _ Hlook) as (vs & Hvs & ->).
  unfold list_sort in Hm. rewrite merge_sort_Permutation in Hm.
  destruct (resolves_range _ _ _ _ Hvs Hm) as (k & _ & Hk).
  destruct (build_user_map_lookup _ _ _ Hk) as (user & Hin & _ & ->).
  by exists user.
Qed.

Lemma process_assignment_report_ok gm aid an ps pn pd a s :
  members_of cloud store (build_user_map users) gm →
  warm (arn, store) s ∧ report_ok users s →
  let s' := (process_assignment (build_user_map users) gm aid an ps pn pd a s).2 in
  warm (arn, store) s' ∧ report_ok users s'.
Proof.
  intros Hgm [Hw (data & Hrows & Hdata)] s'.
  destruct (process_assignment_appends (build_user_map users) gm aid an ps pn pd a s)
    as (rows & Hs' & Hrow).
  subst s'. rewrite Hs'. split; [done|].
  exists (data ++ rows). split; [simpl; by rewrite Hrows|].
  apply Forall_app. split; [done|]. apply Forall_forall. intros row Hin.
  destruct (Hrow row Hin) as [(v & Hv & ->)|(gn & gd & ms & m & Hlook & Hm & ->)].
  - destruct (build_user_map_lookup _ _ _ Hv) as (user & Huser & _ & ->).
    split; [done|]. by exists user.
  - destruct (member_listed _ _ _ _ _ _ Hgm Hlook Hm) as (user & Huser & ->).
    split; [done|]. by exists user.
Qed.

Lemma write_report_report_ok gm s :
  members_of cloud store (build_user_map users) gm →
  warm (arn, store) s →
  let s' := (write_report cloud (build_user_map users) gm s).2 in
  csv_opened s' = true ∧ report_ok users s'.
Proof.
  intros Hgm Hw s'. subst s'. unfold write_report.
  erewrite (bind_Ok open_csv) by reflexivity.
  erewrite (bind_Ok writeheader) by reflexivity.
  erewrite (bind_Ok (generate_accounts cloud)) by reflexivity.
  match goal with |- context [for_each ?l ?b ?s0] => set (s2 := s0) end.
  pose proof (walk_invariant cloud arn store
    (λ s, csv_opened s = true ∧ warm (arn, store) s ∧ report_ok users s)
    (build_user_map users) gm) as Hinv.
  destruct (Hinv) with (s := s2) as (Ho & _ & Hr); [..|done].
  - by intros s0 (_ & Hw0 & _).
  - intros s0 line (Ho & Hw0 & Hr). done.
  - intros s0 ps (Ho & Hw0 & Hr) _.
    rewrite (describe_permission_set_warm cloud arn store ps s0 Hw0).
    destruct (cache_get ps (ps_cache s0)); done.
  - intros s0 aid an ps pn pd a (Ho & Hw0 & Hr).
    destruct (process_assignment_report_ok gm aid an ps pn pd a s0 Hgm (conj Hw0 Hr))
      as [Hw1 Hr1].
    split; [|done].
    destruct (process_assignment_appends (build_user_map users) gm aid an ps pn pd a s0)
      as (rows & -> & _).
    done.
  - split; [done|]. split; [done|]. exists []. split; [done | constructor].
Qed.

End report.

(** C4. Once the run has opened the report, the file holds the header
    ACCOUNT_ID, ACCOUNT_NAME, PERM_ARN, PERMISSION, PERM_DESC, PRINCIPAL_TYPE,
    GROUP, GROUP_DESC, USER_ID, USER_NAME followed by data records of ten
    fields each, and in every data record USER_ID holds the username and
    USER_NAME the display name of a listed directory user. *)
Theorem report_header_and_user_columns cloud i rest r s' :
  api_list_instances cloud = i :: rest →
  main cloud initial_state = (r, s') →
  csv_opened s' = true →
  ∃ data,
    csv_rows s'
    = [ "ACCOUNT_ID"; "ACCOUNT_NAME"; "PERM_ARN"; "PERMISSION"; "PERM_DESC";
        "PRINCIPAL_TYPE"; "GROUP"; "GROUP_DESC"; "USER_ID"; "USER_NAME" ] :: data
    ∧ ∀ row, row ∈ data →
        length row = 10
        ∧ ∃ user, user ∈ api_list_users cloud (IdentityStoreId i)
                  ∧ column "USER_ID" row = Some (UserName user)
                  ∧ column "USER_NAME" row = Some (user_DisplayName user).
Proof.
  intros Hi Hmain Hopen. unfold main in Hmain.
  destruct (load_directory_run cloud initial_state i rest eq_refl Hi)
    as [(gm & Hload & Hgm & _)|(k & _ & _ & Hload)].
  - rewrite (bind_Ok _ _ _ _ _ Hload) in Hmain.
    destruct (write_report_report_ok cloud (InstanceArn i) (IdentityStoreId i)
                (api_list_users cloud (IdentityStoreId i)) gm
                (resolved_state (InstanceArn i, IdentityStoreId i) initial_state)
                Hgm eq_refl) as (_ & data & Hrows & Hdata).
    rewrite Hmain in Hrows. simpl in Hrows.
    exists data. split; [exact Hrows|].
    intros row Hin. rewrite Forall_forall in Hdata. by apply Hdata.
  - rewrite (bind_Raise _ _ _ _ _ Hload) in Hmain. inversion Hmain; subst.
    discriminate Hopen.
Qed.

Lemma report_header_and_user_columns_witness :
  ∃ data,
    csv_rows (main prod_cloud initial_state).2
    = [ "ACCOUNT_ID"; "ACCOUNT_NAME"; "PERM_ARN"; "PERMISSION"; "PERM_DESC";
        "PRINCIPAL_TYPE"; "GROUP"; "GROUP_DESC"; "USER_ID"; "USER_NAME" ] :: data
    ∧ ∀ row, row ∈ data → length row = 10.
Proof.
  destruct (report_header_and_user_columns prod_cloud
              {| IdentityStoreId := "d-1"; InstanceArn := "arn:instance" |} []
              (main prod_cloud initial_state).1 (main prod_cloud initial_state).2)
    as (data & Hrows & Hdata).
  - reflexivity.
  - by destruct (main prod_cloud initial_state).
  - vm_compute. reflexivity.
  - exists data. split; [exact Hrows|]. intros row Hin. by destruct (Hdata row Hin).
Defined.

(** ** The permission-set cache *)

Lemma cache_get_None {K V} `{EqDecision K} (key : K) (c : list (K * V)) :
  cache_get key c = None ↔ key ∉ c.*1.
Proof.
  induction c as [|[k v] c IH]; simpl.
  - split; [intros _ Hin; by inversion Hin | done].
  - rewrite not_elem_of_cons. destruct (decide (key = k)) as [->|Hne]; naive_solver.
Qed.

Lemma cache_get_Some {K V} `{EqDecision K} (key : K) (c : list (K * V)) v :
  cache_get key c = Some v → key ∈ c.*1.
Proof.
  intros Hget. destruct (decide (key ∈ c.*1)) as [Hin|Hnot]; [done|].
  apply cache_get_None in Hnot. congruence.
Qed.

Lemma cache_touch_keys {K V} `{EqDecision K} (key : K) (v : V) (c : list (K * V)) :
  (cache_touch key v c).*1 = key :: filter (λ k, k ≠ key) c.*1.
Proof.
  unfold cache_touch. simpl. f_equal.
  induction c as [|[k w] c IH]; [done|].
  rewrite fmap_cons, !filter_cons. simpl.
  destruct (decide (k ≠ key)); simpl; by rewrite IH.
Qed.

Lemma cache_store_room {K V} `{EqDecision K} (key : K) (v : V) (c : list (K * V)) :
  cache_get key c = None → length c < maxsize →
  cache_store key v c = (key, v) :: c.
Proof.
  intros Hget Hlen. unfold cache_store. rewrite Hget.
  destruct (decide (maxsize ≤ length c)); [lia | done].
Qed.

Lemma NoDup_length_bound (l universe : list string) :
  NoDup l → (∀ x, x ∈ l → x ∈ universe) →
  length l ≤ length (remove_dups universe).
Proof.
  intros Hl Hsub. apply submseteq_length, NoDup_submseteq; [done|].
  intros x Hx. apply elem_of_remove_dups. by apply Hsub.
Qed.

Lemma NoDup_constant_length {A} (l : list A) a :
  NoDup l → (∀ x, x ∈ l → x = a) → length l ≤ 1.
Proof.
  intros Hl Hall. destruct l as [|x [|y l]]; simpl; [lia..|].
  exfalso. apply NoDup_cons in Hl as [Hx _]. apply Hx.
  rewrite (Hall x) by (by left). rewrite <- (Hall y) by (right; by left). by left.
Qed.

Section memo.
Context (cloud : Cloud) (arn store : string) (universe : list string).
Hypothesis capacity : length (remove_dups universe) ≤ maxsize.

Lemma describe_permission_set_cache_inv ps s :
  ps ∈ universe →
  warm (arn, store) s ∧ cache_inv arn universe s →
  let s' := (describe_permission_set cloud ps s).2 in
  warm (arn, store) s' ∧ cache_inv arn universe s'.
Proof.
  intros Hps [Hw (Hnd & Hkeys & Hlog & Hall)] s'. subst s'.
  rewrite (describe_permission_set_warm cloud arn store ps s Hw).
  destruct (cache_get ps (ps_cache s)) as [v|] eqn:Hget; cbn [snd].
  - split; [done|]. unfold cache_inv, set_ps_cache; cbn [ps_cache describe_calls].
    rewrite cache_touch_keys.
    apply cache_get_Some in Hget.
    split; [|split; [|done]].
    + apply NoDup_cons. split; [|by apply NoDup_filter].
      rewrite list_elem_of_filter. naive_solver.
    + intros k. rewrite <- Hkeys, elem_of_cons, list_elem_of_filter.
      destruct (decide (k = ps)) as [->|Hne]; naive_solver.
  - split; [done|]. unfold cache_inv; cbn [ps_cache describe_calls].
    pose proof Hget as Hnot. apply cache_get_None in Hnot.
    assert (length (ps_cache s) < maxsize) as Hroom.
    { assert (length (ps :: (ps_cache s).*1) ≤ length (remove_dups universe)) as Hb.
      { apply NoDup_length_bound; [by apply NoDup_cons|].
        intros k [->|Hk]%elem_of_cons; [done|].
        apply Hkeys in Hk. by destruct (Hall _ Hk). }
      simpl in Hb. rewrite length_fmap in Hb. lia. }
    rewrite (cache_store_room _ _ _ Hget Hroom). rewrite fmap_cons. cbn [fst].
    split; [by apply NoDup_cons|]. split; [|split].
    + intros k. rewrite elem_of_cons, elem_of_app, list_elem_of_singleton, Hkeys.
      naive_solver.
    + apply NoDup_app. split; [done|]. split; [|apply NoDup_singleton].
      intros c Hc ->%list_elem_of_singleton. apply Hnot. by apply Hkeys.
    + intros c [Hc| ->%list_elem_of_singleton]%elem_of_app; [by apply Hall | done].
Qed.

End memo.

Lemma cache_inv_describe_count arn universe s ps :
  cache_inv arn universe s → describe_count ps s ≤ 1.
Proof.
  intros (_ & _ & Hlog & Hall). unfold describe_count.
  apply (NoDup_constant_length _ (arn, ps)); [by apply NoDup_filter|].
  intros [a p] [Hp Hin]%list_elem_of_filter. simpl in Hp. subst p.
  destruct (Hall _ Hin) as [Ha _]. simpl in Ha. by subst a.
Qed.

Lemma write_report_cache_inv cloud arn store um gm s :
  length (remove_dups (provisioned_arns cloud arn)) ≤ maxsize →
  warm (arn, store) s →
  cache_inv arn (provisioned_arns cloud arn) s →
  cache_inv arn (provisioned_arns cloud arn) (write_report cloud um gm s).2.
Proof.
  intros Hcap Hw Hinv. unfold write_report.
  erewrite (bind_Ok open_csv) by reflexivity.
  erewrite (bind_Ok writeheader) by reflexivity.
  erewrite (bind_Ok (generate_accounts cloud)) by reflexivity.
  match goal with |- context [for_each ?l ?b ?s0] => set (s2 := s0) end.
  pose proof (walk_invariant cloud arn store
    (λ s, warm (arn, store) s ∧ cache_inv arn (provisioned_arns cloud arn) s)
    um gm) as Hwalk.
  destruct Hwalk with (s := s2) as [_ Hfinal]; [..|done].
  - by intros s0 [Hw0 _].
  - by intros s0 line [Hw0 Hi0].
  - intros s0 ps H0 Hps.
    by apply (describe_permission_set_cache_inv cloud arn store _ Hcap).
  - intros s0 aid an ps pn pd a [Hw0 Hi0].
    destruct (process_assignment_appends um gm aid an ps pn pd a s0) as (rows & -> & _).
    done.
  - done.
Qed.

(** C3, as the code has it. The permission-set cache is an LRU store of 128
    entries. In a run whose provisioned permission sets comprise at most 128
    distinct ARNs nothing is ever evicted, and the describe call is issued at
    most once for each ARN. *)
Theorem describe_once_per_arn_within_capacity cloud i rest r s' :
  api_list_instances cloud = i :: rest →
  length (remove_dups (provisioned_arns cloud (InstanceArn i))) ≤ maxsize →
  main cloud initial_state = (r, s') →
  ∀ permission_set, describe_count permission_set s' ≤ 1.
Proof.
  intros Hi Hcap Hmain ps. unfold main in Hmain.
  apply (cache_inv_describe_count (InstanceArn i)
           (provisioned_arns cloud (InstanceArn i))).
  assert (cache_inv (InstanceArn i) (provisioned_arns cloud (InstanceArn i))
            (resolved_state (InstanceArn i, IdentityStoreId i) initial_state)) as Hstart.
  { split; [constructor|]. split; [|split; [constructor|]].
    - intros k. simpl. split; intros H; by inversion H.
    - intros c H. by inversion H. }
  destruct (load_directory_run cloud initial_state i rest eq_refl Hi)
    as [(gm & Hload & _)|(k & _ & _ & Hload)].
  - rewrite (bind_Ok _ _ _ _ _ Hload) in Hmain.
    pose proof (write_report_cache_inv cloud (InstanceArn i) (IdentityStoreId i)
                  (build_user_map (api_list_users cloud (IdentityStoreId i))) gm
                  (resolved_state (InstanceArn i, IdentityStoreId i) initial_state)
                  Hcap eq_refl Hstart) as Hfinal.
    by rewrite Hmain in Hfinal.
  - rewrite (bind_Raise _ _ _ _ _ Hload) in Hmain. by inversion Hmain; subst.
Qed.

Lemma describe_once_per_arn_within_capacity_witness :
  describe_count "ps-1" (main prod_cloud initial_state).2 ≤ 1.
Proof.
  apply (describe_once_per_arn_within_capacity prod_cloud
           {| IdentityStoreId := "d-1"; InstanceArn := "arn:instance" |} []
           (main prod_cloud initial_state).1).
  - reflexivity.
  - vm_compute. lia.
  - by destruct (main prod_cloud initial_state).
Defined.

(** C3 as stated fails beyond 128 distinct ARNs: after ps-0 to ps-128 have
    been described, ps-0 has been evicted, and its next lookup issues the
    describe call a second time. *)
Lemma describe_repeated_after_eviction :
  ¬ ∀ permission_set,
      describe_count permission_set (main overflow_cloud initial_state).2 ≤ 1.
Proof.
  intros H. specialize (H "ps-0").
  assert (describe_count "ps-0" (main overflow_cloud initial_state).2 = 2) as Hc
    by (vm_compute; reflexivity).
  lia.
Qed.

(** ** The example of the specification, run *)

Example prod_report :
  main prod_cloud initial_state
  = (Ok (),
     {| ic_cache := [((), ("arn:instance", "d-1"))];
        ps_cache := [("ps-1", {| ps_Name := "Admin";
                                 ps_Description := Some "full access" |})];
        list_instances_calls := 1;
        describe_calls := [("arn:instance", "ps-1")];
        csv_opened := true;
        csv_rows :=
          [ field_names;
            [ "111"; "Prod"; "ps-1"; "Admin"; "full access"; "GROUP";
              "Admins"; ""; "alice"; "Alice A" ];
            [ "111"; "Prod"; "ps-1"; "Admin"; "full access"; "GROUP";
              "Admins"; ""; "bob"; "Bob B" ];
            [ "111"; "Prod"; "ps-1"; "Admin"; "full access"; "USER";
              ""; ""; "bob"; "Bob B" ] ];
        stdout := [ "Processing account 111: Prod ..." ] |}).
Proof. vm_compute. reflexivity. Qed.

(** ** Unknown groups *)

(** X1. A GROUP assignment whose principal id is not a key of the group map
    raises KeyError for that id and writes nothing; the enclosing loop stops
    there, keeping what earlier assignments wrote and never reaching the
    later ones. *)
Theorem group_assignment_unknown_group_aborts um gm aid an ps pn pd a s :
  PrincipalType a = "GROUP" →
  gm !! PrincipalId a = None →
  process_assignment um gm aid an ps pn pd a s = (Raise (KeyError (PrincipalId a)), s)
  ∧ ∀ earlier later s0,
      for_each earlier (process_assignment um gm aid an ps pn pd) s0 = (Ok (), s) →
      for_each (earlier ++ a :: later) (process_assignment um gm aid an ps pn pd) s0
      = (Raise (KeyError (PrincipalId a)), s).
Proof.
  intros Ht Hg.
  pose proof (process_assignment_group_missing um gm aid an ps pn pd a s Ht Hg) as Hbody.
  split; [exact Hbody|].
  intros earlier later s0 Hpre. by eapply for_each_Raise.
Qed.

Lemma group_assignment_unknown_group_aborts_witness :
  for_each [ bob_assignment; ghost_group_assignment; admins_assignment ]
    (process_assignment prod_user_map prod_group_map "111" "Prod" "ps-1" "Admin"
       "full access") initial_state
  = (Raise (KeyError "g9"),
     append_records
       [ user_record "111" "Prod" "ps-1" "Admin" "full access" "USER" ("bob", "Bob B") ]
       initial_state).
Proof.
  apply (proj2 (group_assignment_unknown_group_aborts prod_user_map prod_group_map
                  "111" "Prod" "ps-1" "Admin" "full access" ghost_group_assignment
                  (append_records
                     [ user_record "111" "Prod" "ps-1" "Admin" "full access" "USER"
                         ("bob", "Bob B") ] initial_state)
                  eq_refl eq_refl)
           [ bob_assignment ] [ admins_assignment ] initial_state).
  vm_compute. reflexivity.
Defined.

(** ** The directory maps *)

Section insertions.
Context {A V : Type} (key : A → string) (val : A → V).

Lemma foldl_insert_lookup_ne l (acc : gmap string V) k :
  (∀ x, x ∈ l → key x ≠ k) →
  foldl (λ m x, <[key x := val x]> m) acc l !! k = acc !! k.
Proof.
  revert acc. induction l as [|x l IH]; intros acc Hne; simpl; [done|].
  rewrite IH by (intros y Hy; apply Hne; by right).
  apply lookup_insert_ne, Hne. by left.
Qed.

Lemma foldl_insert_lookup_last l1 x l2 (acc : gmap string V) :
  (∀ y, y ∈ l2 → key y ≠ key x) →
  foldl (λ m x, <[key x := val x]> m) acc (l1 ++ x :: l2) !! key x = Some (val x).
Proof.
  intros Hne. rewrite foldl_app. simpl.
  rewrite foldl_insert_lookup_ne by done. apply lookup_insert_eq.
Qed.

Lemma foldl_insert_lookup_Some l (acc : gmap string V) k v :
  foldl (λ m x, <[key x := val x]> m) acc l !! k = Some v →
  acc !! k = Some v ∨ ∃ x, x ∈ l ∧ key x = k ∧ v = val x.
Proof.
  revert acc. induction l as [|x l IH]; intros acc Hlook; simpl in *; [by left|].
  destruct (IH _ Hlook) as [Hacc|(y & Hin & Hk & Hv)].
  - destruct (decide (key x = k)) as [Heq|Hne].
    + rewrite <- Heq, lookup_insert_eq in Hacc. inversion Hacc.
      right. exists x. split; [by left | done].
    + rewrite lookup_insert_ne in Hacc by done. by left.
  - right. exists y. split; [by right | done].
Qed.

Lemma foldl_insert_is_Some l (acc : gmap string V) k :
  is_Some (acc !! k) ∨ (∃ x, x ∈ l ∧ key x = k) →
  is_Some (foldl (λ m x, <[key x := val x]> m) acc l !! k).
Proof.
  revert acc. induction l as [|x l IH]; intros acc H; simpl.
  - destruct H as [H|(x & Hin & _)]; [done | by inversion Hin].
  - apply IH. destruct H as [H|(y & Hin & Hy)].
    + left. destruct (decide (key x = k)) as [<-|Hne].
      * rewrite lookup_insert_eq. by eexists.
      * by rewrite lookup_insert_ne.
    + apply elem_of_cons in Hin as [->|Hin].
      * left. rewrite <- Hy, lookup_insert_eq. by eexists.
      * right. by exists y.
Qed.

Lemma foldl_insert_lookup_None l k :
  foldl (λ m x, <[key x := val x]> m) (∅ : gmap string V) l !! k = None
  ↔ ∀ x, x ∈ l → key x ≠ k.
Proof.
  split.
  - intros Hnone x Hin Hk.
    destruct (foldl_insert_is_Some l ∅ k) as [v Hv]; [right; by exists x | congruence].
  - intros Hne. rewrite foldl_insert_lookup_ne by done. apply lookup_empty.
Qed.

End insertions.

(** X2. The user map has an entry exactly for the listed user ids, and the
    entry of an id holds the username and display name of the last listed
    user with that id. *)
Theorem user_map_last_listing_wins users :
  (∀ k, build_user_map users !! k = None ↔ ∀ u, u ∈ users → UserId u ≠ k)
  ∧ ∀ before u after,
      users = before ++ u :: after →
      (∀ v, v ∈ after → UserId v ≠ UserId u) →
      build_user_map users !! UserId u = Some (UserName u, user_DisplayName u).
Proof.
  split.
  - intros k. apply (foldl_insert_lookup_None UserId
                       (λ u, (UserName u, user_DisplayName u))).
  - intros before u after -> Hne.
    by apply (foldl_insert_lookup_last UserId (λ u, (UserName u, user_DisplayName u))).
Qed.

Lemma user_map_last_listing_wins_witness :
  build_user_map
    [ alice; bob;
      {| UserId := "u1"; UserName := "alice2"; user_DisplayName := "Alice Again" |} ]
    !! "u1"
  = Some ("alice2", "Alice Again").
Proof.
  apply (proj2 (user_map_last_listing_wins
                  [ alice; bob;
                    {| UserId := "u1"; UserName := "alice2";
                       user_DisplayName := "Alice Again" |} ])
           [ alice; bob ]
           {| UserId := "u1"; UserName := "alice2"; user_DisplayName := "Alice Again" |}
           []).
  - reflexivity.
  - intros v Hv. by inversion Hv.
Defined.

Lemma resolves_resolve_all (um : gmap string (string * string)) ids vs :
  resolves um ids vs → vs = resolve_all um ids.
Proof.
  unfold resolve_all. induction 1 as [|k v ids vs Hk _ IH]; simpl; [done|].
  rewrite Hk. simpl. by rewrite IH.
Qed.

Lemma for_fold_add_group_exact cloud arn store um groups gm gm' s s' :
  warm (arn, store) s →
  for_fold groups gm (add_group cloud um) s = (Ok gm', s') →
  gm' = foldl (λ group_map group,
                 <[GroupId group :=
                     (group_DisplayName group, default "" (group_Description group),
                      list_sort (resolve_all um
                         (api_list_group_memberships cloud store (GroupId group))))]>
                   group_map)
              gm groups.
Proof.
  intros Hw. revert gm. induction groups as [|g groups IH]; intros gm Hrun; simpl in *.
  - by inversion Hrun.
  - destruct (add_group_run cloud arn store um gm g s Hw)
      as [(vs & Hvs & Hadd)|(k & _ & _ & Hadd)].
    + rewrite (bind_Ok _ _ _ _ _ Hadd) in Hrun.
      rewrite <- (resolves_resolve_all _ _ _ Hvs). by apply IH.
    + rewrite (bind_Raise _ _ _ _ _ Hadd) in Hrun. congruence.
Qed.

Lemma load_directory_group_map cloud i rest um gm s1 :
  api_list_instances cloud = i :: rest →
  load_directory cloud initial_state = (Ok (um, gm), s1) →
  gm = build_group_map cloud (IdentityStoreId i) um
         (api_list_groups cloud (IdentityStoreId i)).
Proof.
  intros Hi Hload.
  assert (warm (InstanceArn i, IdentityStoreId i)
            (resolved_state (InstanceArn i, IdentityStoreId i) initial_state)) as Hw
    by done.
  unfold load_directory in Hload.
  assert (generate_users cloud initial_state
          = (Ok (api_list_users cloud (IdentityStoreId i)),
             resolved_state (InstanceArn i, IdentityStoreId i) initial_state)) as Hu.
  { unfold generate_users.
    by rewrite (bind_Ok _ _ _ _ _
                  (get_identity_center_cold cloud initial_state i rest eq_refl Hi)). }
  assert (generate_groups cloud
            (resolved_state (InstanceArn i, IdentityStoreId i) initial_state)
          = (Ok (api_list_groups cloud (IdentityStoreId i)),
             resolved_state (InstanceArn i, IdentityStoreId i) initial_state)) as Hg.
  { unfold generate_groups.
    by rewrite (bind_Ok _ _ _ _ _ (get_identity_center_warm cloud _ _ Hw)). }
  rewrite (bind_Ok _ _ _ _ _ Hu), (bind_Ok _ _ _ _ _ Hg) in Hload.
  unfold mbind, M_mbind, M_bind in Hload.
  destruct (for_fold (api_list_groups cloud (IdentityStoreId i)) ∅
              (add_group cloud (build_user_map (api_list_users cloud (IdentityStoreId i))))
              (resolved_state (InstanceArn i, IdentityStoreId i) initial_state))
    as [[gm0|e] s0] eqn:Hfold; [|congruence].
  inversion Hload; subst.
  by apply (for_fold_add_group_exact cloud (InstanceArn i) (IdentityStoreId i) _ _ _ _ _ _
              Hw Hfold).
Qed.

(** X3. After a successful directory load the group map has an entry
    exactly for the listed group ids; the entry of an id holds the display
    name of the last listed group with that id, its description or the empty
    string when it has none, and the sorted resolution of its membership
    listing. *)
Theorem group_map_last_listing_wins cloud i rest um gm s1 :
  api_list_instances cloud = i :: rest →
  load_directory cloud initial_state = (Ok (um, gm), s1) →
  (∀ gid, gm !! gid = None
          ↔ ∀ g, g ∈ api_list_groups cloud (IdentityStoreId i) → GroupId g ≠ gid)
  ∧ ∀ before g after,
      api_list_groups cloud (IdentityStoreId i) = before ++ g :: after →
      (∀ h, h ∈ after → GroupId h ≠ GroupId g) →
      ∃ vs,
        resolves um (api_list_group_memberships cloud (IdentityStoreId i) (GroupId g)) vs
        ∧ gm !! GroupId g
          = Some (group_DisplayName g, default "" (group_Description g), list_sort vs).
Proof.
  intros Hi Hload.
  pose proof (load_directory_group_map cloud i rest um gm s1 Hi Hload) as Hgm.
  destruct (load_directory_Ok cloud um gm s1 Hload) as (i' & rest' & Hi' & _ & _ & Hmem).
  assert (i' = i) as -> by congruence.
  split.
  - intros gid. rewrite Hgm. unfold build_group_map.
    apply (foldl_insert_lookup_None GroupId
             (λ g, (group_DisplayName g, default "" (group_Description g),
                    list_sort (resolve_all um
                       (api_list_group_memberships cloud (IdentityStoreId i) (GroupId g)))))).
  - intros before g after Hgroups Hne.
    assert (gm !! GroupId g
            = Some (group_DisplayName g, default "" (group_Description g),
                    list_sort (resolve_all um
                       (api_list_group_memberships cloud (IdentityStoreId i) (GroupId g)))))
      as Hlook.
    { rewrite Hgm. unfold build_group_map. rewrite Hgroups.
      by apply (foldl_insert_lookup_last GroupId
                  (λ g, (group_DisplayName g, default "" (group_Description g),
                         list_sort (resolve_all um
                            (api_list_group_memberships cloud (IdentityStoreId i)
                               (GroupId g)))))). }
    destruct (Hmem _ _ _ _ Hlook) as (vs & Hvs & Hsort).
    exists vs. split; [done|]. by rewrite Hlook, (resolves_resolve_all _ _ _ Hvs).
Qed.

Lemma group_map_last_listing_wins_witness :
  ∃ vs,
    resolves prod_user_map (api_list_group_memberships prod_cloud "d-1" "g1") vs
    ∧ prod_group_map !! "g1" = Some ("Admins", "", list_sort vs).
Proof.
  assert (load_directory prod_cloud initial_state
          = (Ok (prod_user_map, prod_group_map),
             resolved_state ("arn:instance", "d-1") initial_state)) as Hload
    by (vm_compute; reflexivity).
  apply (proj2 (group_map_last_listing_wins prod_cloud
                  {| IdentityStoreId := "d-1"; InstanceArn := "arn:instance" |} []
                  _ _ _ eq_refl Hload)
           []
           {| GroupId := "g1"; group_DisplayName := "Admins"; group_Description := None |}
           []).
  - reflexivity.
  - intros h Hh. by inversion Hh.
Defined.

(** X4. With an identity-center instance, the directory load succeeds
    exactly when every member id of every listed group is a key of the user
    map; it then returns the user map and the group map of the listings, and
    its only effect is the one instance listing call that fills the resolver
    cache. *)
Theorem directory_load_succeeds_iff_members_listed cloud i rest :
  api_list_instances cloud = i :: rest →
  (∀ g k, g ∈ api_list_groups cloud (IdentityStoreId i) →
          k ∈ api_list_group_memberships cloud (IdentityStoreId i) (GroupId g) →
          is_Some (build_user_map (api_list_users cloud (IdentityStoreId i)) !! k))
  ↔ load_directory cloud initial_state
    = (Ok (build_user_map (api_list_users cloud (IdentityStoreId i)),
           build_group_map cloud (IdentityStoreId i)
             (build_user_map (api_list_users cloud (IdentityStoreId i)))
             (api_list_groups cloud (IdentityStoreId i))),
       resolved_state (InstanceArn i, IdentityStoreId i) initial_state).
Proof.
  intros Hi.
  destruct (load_directory_run cloud initial_state i rest eq_refl Hi)
    as [(gm & Hload & _ & Hall)|(k & Hnone & (g & Hg & Hk) & Hload)].
  - rewrite (load_directory_group_map cloud i rest _ _ _ Hi Hload) in Hload.
    split; [by intros _ | by intros _].
  - split.
    + intros Hall. destruct (Hall g k Hg Hk) as [v Hv]. congruence.
    + intros Hok. congruence.
Qed.

Lemma directory_load_succeeds_iff_members_listed_witness :
  load_directory prod_cloud initial_state
  = (Ok (build_user_map (api_list_users prod_cloud "d-1"),
         build_group_map prod_cloud "d-1"
           (build_user_map (api_list_users prod_cloud "d-1"))
           (api_list_groups prod_cloud "d-1")),
     resolved_state ("arn:instance", "d-1") initial_state).
Proof.
  apply (proj1 (directory_load_succeeds_iff_members_listed prod_cloud
                  {| IdentityStoreId := "d-1"; InstanceArn := "arn:instance" |} []
                  eq_refl)).
  intros g k Hg Hk. simpl in Hg.
  apply elem_of_cons in Hg as [->|Hg]; [|by inversion Hg].
  simpl in Hk.
  apply elem_of_cons in Hk as [->|Hk]; [vm_compute; by eexists|].
  apply elem_of_cons in Hk as [->|Hk]; [vm_compute; by eexists|].
  by inversion Hk.
Defined.

(** ** More on the permission-set cache *)

Lemma cache_get_elem {K V} `{EqDecision K} (key : K) (c : list (K * V)) v :
  cache_get key c = Some v → (key, v) ∈ c.
Proof.
  induction c as [|[k w] c IH]; simpl; [done|].
  destruct (decide (key = k)) as [->|Hne].
  - intros [= ->]. by left.
  - intros H. right. by apply IH.
Qed.

Lemma cache_get_head {K V} `{EqDecision K} (key : K) (v : V) (c : list (K * V)) :
  cache_get key ((key, v) :: c) = Some v.
Proof. simpl. by rewrite decide_True. Qed.

Lemma elem_of_removelast {A} (l : list A) x : x ∈ removelast l → x ∈ l.
Proof.
  induction l as [|y [|z l] IH]; simpl; [done | by intros H; inversion H |].
  intros [->|H]%elem_of_cons; [by left | right; by apply IH].
Qed.

Lemma length_removelast_pred {A} (l : list A) : length (removelast l) = pred (length l).
Proof.
  rewrite removelast_firstn_len, length_take. lia.
Qed.

Lemma cache_store_miss {K V} `{EqDecision K} (key : K) (v : V) (c : list (K * V)) :
  cache_get key c = None →
  ∃ c', cache_store key v c = (key, v) :: c'
        ∧ (∀ x, x ∈ c' → x ∈ c)
        ∧ length ((key, v) :: c') ≤ Nat.max maxsize (S (length c))
        ∧ (length c < maxsize → c' = c)
        ∧ (length c ≤ maxsize → length ((key, v) :: c') ≤ maxsize).
Proof.
  intros Hget. unfold cache_store. rewrite Hget.
  destruct (decide (maxsize ≤ length c)) as [Hfull|Hroom].
  - exists (removelast c). split; [done|]. split; [apply elem_of_removelast|].
    simpl. rewrite length_removelast_pred. unfold maxsize in *. repeat split; lia.
  - exists c. simpl. unfold maxsize in *. repeat split; (done || lia).
Qed.

Lemma cache_touch_length {K V} `{EqDecision K} (key : K) (v : V) (c : list (K * V)) :
  cache_get key c = Some v → length (cache_touch key v c) ≤ length c.
Proof.
  intros Hget%cache_get_elem. unfold cache_touch. simpl.
  apply (length_filter_lt (λ kv : K * V, kv.1 ≠ key)) in Hget; [lia|].
  simpl. by intros H.
Qed.

Section transparency.
Context (cloud : Cloud) (arn store : string).

Lemma describe_permission_set_coherent ps s :
  walk_inv cloud (arn, store) s →
  ∃ s',
    describe_permission_set cloud ps s
    = (Ok (api_describe_permission_set cloud arn ps), s')
    ∧ walk_inv cloud (arn, store) s'
    ∧ csv_rows s' = csv_rows s ∧ csv_opened s' = csv_opened s
    ∧ stdout s' = stdout s ∧ list_instances_calls s' = list_instances_calls s
    ∧ is_Some (cache_get ps (ps_cache s'))
    ∧ describe_calls s'
      = match cache_get ps (ps_cache s) with
        | Some _ => describe_calls s
        | None => describe_calls s ++ [(arn, ps)]
        end.
Proof.
  intros [Hw Hco]. simpl in Hco.
  rewrite (describe_permission_set_warm cloud arn store ps s Hw).
  destruct (cache_get ps (ps_cache s)) as [v|] eqn:Hget.
  - pose proof (cache_get_elem _ _ _ Hget) as Hin.
    rewrite (Hco _ _ Hin). eexists. split; [reflexivity|].
    split; [split; [done|]|].
    + intros k w. simpl. unfold cache_touch.
      intros [[= -> ->]|[_ Hk]%list_elem_of_filter]%elem_of_cons; [done|].
      by apply Hco.
    + unfold set_ps_cache.
      cbn [csv_rows csv_opened stdout list_instances_calls describe_calls ps_cache].
      repeat split; try done. unfold cache_touch.
      rewrite cache_get_head. by eexists.
  - destruct (cache_store_miss ps (api_describe_permission_set cloud arn ps)
                (ps_cache s) Hget) as (c' & Hstore & Hsub & _).
    eexists. split; [reflexivity|].
    split; [split; [done|]|].
    + intros k w. simpl. rewrite Hstore.
      intros [[= -> ->]|Hk]%elem_of_cons; [done|]. by apply Hco, Hsub.
    + cbn [csv_rows csv_opened stdout list_instances_calls describe_calls ps_cache].
      repeat split; try done. rewrite Hstore, cache_get_head. by eexists.
Qed.

End transparency.

(** X5. Memoization is transparent. With a warm resolver cache and a cache
    whose entries are the API's own descriptions, describe_permission_set
    returns what the describe API gives for the ARN, whether it is cached or
    not; it issues the describe call only when the ARN is not cached; and the
    ARN is cached afterwards, so a lookup repeated at once issues no call. *)
Theorem describe_permission_set_transparent cloud arn store ps s :
  warm (arn, store) s →
  coherent cloud arn s →
  ∃ s',
    describe_permission_set cloud ps s
    = (Ok (api_describe_permission_set cloud arn ps), s')
    ∧ coherent cloud arn s'
    ∧ describe_calls s'
      = match cache_get ps (ps_cache s) with
        | Some _ => describe_calls s
        | None => describe_calls s ++ [(arn, ps)]
        end
    ∧ ∃ s'',
        describe_permission_set cloud ps s'
        = (Ok (api_describe_permission_set cloud arn ps), s'')
        ∧ describe_calls s'' = describe_calls s'.
Proof.
  intros Hw Hco.
  destruct (describe_permission_set_coherent cloud arn store ps s (conj Hw Hco))
    as (s' & Hrun & Hinv' & _ & _ & _ & _ & [v Hcached] & Hcalls).
  exists s'. split; [done|]. split; [by destruct Hinv'|]. split; [done|].
  destruct (describe_permission_set_coherent cloud arn store ps s' Hinv')
    as (s'' & Hrun' & _ & _ & _ & _ & _ & _ & Hcalls').
  exists s''. split; [done|]. by rewrite Hcalls', Hcached.
Qed.

Lemma describe_permission_set_transparent_witness :
  ∃ s',
    describe_permission_set prod_cloud "ps-1"
      (resolved_state ("arn:instance", "d-1") initial_state)
    = (Ok {| ps_Name := "Admin"; ps_Description := Some "full access" |}, s')
    ∧ describe_calls s' = [ ("arn:instance", "ps-1") ].
Proof.
  destruct (describe_permission_set_transparent prod_cloud "arn:instance" "d-1" "ps-1"
              (resolved_state ("arn:instance", "d-1") initial_state))
    as (s' & Hrun & _ & Hcalls & _).
  - reflexivity.
  - intros k v Hin. by inversion Hin.
  - exists s'. split; [exact Hrun | exact Hcalls].
Defined.

(** ** Properties of every run *)

(** The three ways a run goes: no instance, a member id that does not
    resolve, or the report is written from the loaded directory. *)
Lemma main_cases cloud :
  (api_list_instances cloud = []
   ∧ ∃ s', main cloud initial_state = (Raise IndexError, s')
           ∧ ps_cache s' = [] ∧ describe_calls s' = []
           ∧ list_instances_calls s' = 1 ∧ stdout s' = []
           ∧ csv_opened s' = false ∧ csv_rows s' = [])
  ∨ ∃ i rest,
      api_list_instances cloud = i :: rest
      ∧ ((∃ k, main cloud initial_state
               = (Raise (KeyError k),
                  resolved_state (InstanceArn i, IdentityStoreId i) initial_state))
         ∨ ∃ gm,
             load_directory cloud initial_state
             = (Ok (build_user_map (api_list_users cloud (IdentityStoreId i)), gm),
                resolved_state (InstanceArn i, IdentityStoreId i) initial_state)
             ∧ main cloud initial_state
               = write_report cloud
                   (build_user_map (api_list_users cloud (IdentityStoreId i))) gm
                   (resolved_state (InstanceArn i, IdentityStoreId i) initial_state)).
Proof.
  destruct (api_list_instances cloud) as [|i rest] eqn:Hi.
  - left. split; [done|]. eexists. split.
    + unfold main. apply bind_Raise. unfold load_directory. apply bind_Raise.
      unfold generate_users. apply bind_Raise.
      by apply get_identity_center_none.
    + done.
  - right. exists i, rest. split; [done|].
    destruct (load_directory_run cloud initial_state i rest eq_refl Hi)
      as [(gm & Hload & _)|(k & _ & _ & Hload)].
    + right. exists gm. split; [done|]. unfold main.
      by rewrite (bind_Ok _ _ _ _ _ Hload).
    + left. exists k. unfold main. by apply bind_Raise.
Qed.

(** A property that holds once the header is written, implies a warm
    resolver cache and is kept by the three effects of the walk, holds when
    the report phase ends. *)
Lemma write_report_invariant cloud arn store (I : state → Prop) um gm s :
  (∀ s, I s → warm (arn, store) s) →
  (∀ s line, I s → I (print line s).2) →
  (∀ s ps, I s → ps ∈ provisioned_arns cloud arn →
     I (describe_permission_set cloud ps s).2) →
  (∀ s aid an ps pn pd a, I s → I (process_assignment um gm aid an ps pn pd a s).2) →
  I (append_record field_names (open_csv s).2) →
  I (write_report cloud um gm s).2.
Proof.
  intros Hwarm Hprint Hdescribe Hassign Hstart. unfold write_report.
  erewrite (bind_Ok open_csv) by reflexivity.
  erewrite (bind_Ok writeheader) by reflexivity.
  erewrite (bind_Ok (generate_accounts cloud)) by reflexivity.
  by apply (walk_invariant cloud arn store I um gm).
Qed.

Lemma process_assignment_frame um gm aid an ps pn pd a s :
  let s' := (process_assignment um gm aid an ps pn pd a s).2 in
  ic_cache s' = ic_cache s ∧ ps_cache s' = ps_cache s
  ∧ list_instances_calls s' = list_instances_calls s
  ∧ describe_calls s' = describe_calls s
  ∧ csv_opened s' = csv_opened s ∧ stdout s' = stdout s.
Proof.
  destruct (process_assignment_appends um gm aid an ps pn pd a s) as (rows & Hs' & _).
  simpl. by rewrite Hs'.
Qed.

(** X6. In every run the instance listing API is called exactly once, be
    there an instance or not and however the run ends: the resolver is
    memoized across all the generators and the describe calls. *)
Theorem list_instances_called_once cloud :
  list_instances_calls (main cloud initial_state).2 = 1.
Proof.
  destruct (main_cases cloud)
    as [[_ (s' & -> & _ & _ & Hn & _)]|(i & rest & Hi & [[k ->]|(gm & _ & ->)])];
    [done..|].
  apply (write_report_invariant cloud (InstanceArn i) (IdentityStoreId i)
           (λ s, warm (InstanceArn i, IdentityStoreId i) s
                 ∧ list_instances_calls s = 1)).
  - by intros s [Hw _].
  - by intros s line [Hw Hn].
  - intros s ps [Hw Hn] _.
    rewrite (describe_permission_set_warm cloud _ _ ps s Hw).
    by destruct (cache_get ps (ps_cache s)).
  - intros s aid an ps pn pd a [Hw Hn].
    destruct (process_assignment_frame
               (build_user_map (api_list_users cloud (IdentityStoreId i)))
               gm aid an ps pn pd a s)
      as (Hic & _ & Hli & _).
    split; [unfold warm; by rewrite Hic | by rewrite Hli].
  - done.
Qed.

(** X7. The permission-set cache never holds more than 128 entries. *)
Theorem ps_cache_bounded cloud :
  length (ps_cache (main cloud initial_state).2) ≤ 128.
Proof.
  destruct (main_cases cloud)
    as [[_ (s' & -> & Hc & _)]|(i & rest & Hi & [[k ->]|(gm & _ & ->)])].
  - simpl. rewrite Hc. simpl. lia.
  - simpl. lia.
  - apply (write_report_invariant cloud (InstanceArn i) (IdentityStoreId i)
             (λ s, warm (InstanceArn i, IdentityStoreId i) s
                   ∧ length (ps_cache s) ≤ maxsize)).
    + by intros s [Hw _].
    + by intros s line [Hw Hn].
    + intros s ps [Hw Hn] _.
      rewrite (describe_permission_set_warm cloud _ _ ps s Hw).
      destruct (cache_get ps (ps_cache s)) as [v|] eqn:Hget.
      * split; [done|]. cbn [snd]. unfold set_ps_cache. cbn [ps_cache].
        pose proof (cache_touch_length _ _ _ Hget). lia.
      * split; [done|]. cbn [snd ps_cache].
        destruct (cache_store_miss ps (api_describe_permission_set cloud
                    (InstanceArn i) ps) (ps_cache s) Hget)
          as (c' & -> & _ & _ & _ & Hb).
        by apply Hb.
    + intros s aid an ps pn pd a [Hw Hn].
      destruct (process_assignment_frame
               (build_user_map (api_list_users cloud (IdentityStoreId i)))
               gm aid an ps pn pd a s)
        as (Hic & Hps & _).
      split; [unfold warm; by rewrite Hic | by rewrite Hps].
    + split; [done|]. simpl. unfold maxsize. lia.
Qed.

(** X8. Every describe call of a run is issued with the arn of the first
    listed instance and for a permission set provisioned to a listed
    account. *)
Theorem describe_only_provisioned cloud c :
  c ∈ describe_calls (main cloud initial_state).2 →
  ∃ i rest,
    api_list_instances cloud = i :: rest
    ∧ c.1 = InstanceArn i
    ∧ c.2 ∈ provisioned_arns cloud (InstanceArn i).
Proof.
  destruct (main_cases cloud)
    as [[_ (s' & -> & _ & Hc & _)]|(i & rest & Hi & [[k ->]|(gm & _ & ->)])].
  - simpl. rewrite Hc. intros H. by inversion H.
  - simpl. intros H. by inversion H.
  - intros Hin. exists i, rest. split; [done|].
    revert c Hin.
    apply (write_report_invariant cloud (InstanceArn i) (IdentityStoreId i)
             (λ s, warm (InstanceArn i, IdentityStoreId i) s
                   ∧ ∀ c, c ∈ describe_calls s →
                       c.1 = InstanceArn i
                       ∧ c.2 ∈ provisioned_arns cloud (InstanceArn i))).
    + by intros s [Hw _].
    + by intros s line [Hw Hn].
    + intros s ps [Hw Hn] Hps.
      rewrite (describe_permission_set_warm cloud _ _ ps s Hw).
      destruct (cache_get ps (ps_cache s)) as [v|] eqn:Hget; [done|].
      split; [done|]. cbn [snd describe_calls].
      intros c [Hc| ->%list_elem_of_singleton]%elem_of_app; [by apply Hn | done].
    + intros s aid an ps pn pd a [Hw Hn].
      destruct (process_assignment_frame
               (build_user_map (api_list_users cloud (IdentityStoreId i)))
               gm aid an ps pn pd a s)
        as (Hic & _ & _ & Hdc & _).
      split; [unfold warm; by rewrite Hic | by rewrite Hdc].
    + split; [done|]. simpl. intros c H. by inversion H.
Qed.

Lemma describe_only_provisioned_witness :
  ∃ i rest,
    api_list_instances prod_cloud = i :: rest
    ∧ "arn:instance" = InstanceArn i
    ∧ "ps-1" ∈ provisioned_arns prod_cloud (InstanceArn i).
Proof.
  apply (describe_only_provisioned prod_cloud ("arn:instance", "ps-1")).
  vm_compute. left.
Defined.

(** ** The report is the flattened join *)

Lemma emits_for_each {A} (I : state → Prop) (l : list A) (body : A → M unit)
    (rows_of : A → list csv_record) (good : A → Prop) :
  (∀ x, x ∈ l → emits I (body x) (rows_of x) (good x)) →
  emits I (for_each l body) (l ≫= rows_of) (∀ x, x ∈ l → good x).
Proof.
  induction l as [|x l IH]; intros Hbody s Hs.
  - simpl. split; [done|]. exists []. split; [by rewrite app_nil_r|].
    split; [done|]. intros x Hx. by inversion Hx.
  - destruct (Hbody x (list_elem_of_here x l) s Hs) as (Hs1 & rows1 & Hrows1 & Hres1).
    assert (emits I (for_each l body) (l ≫= rows_of) (∀ y, y ∈ l → good y)) as IH'
      by (apply IH; intros y Hy; apply Hbody; by right).
    rewrite bind_cons.
    change (for_each (x :: l) body) with (body x ≫= λ _, for_each l body).
    destruct (body x s) as [[[]|e] s1] eqn:Hbx; simpl in Hs1, Hrows1, Hres1.
    + rewrite (bind_Ok _ _ _ _ _ Hbx).
      destruct Hres1 as [-> Hgood].
      destruct (IH' s1 Hs1) as (Hs2 & rows2 & Hrows2 & Hres2).
      split; [done|]. exists (rows_of x ++ rows2).
      split; [by rewrite Hrows2, Hrows1, app_assoc|].
      destruct ((for_each l body s1).1) as [[]|e].
      * destruct Hres2 as [-> Hgood2]. split; [done|].
        intros y [->|Hy]%elem_of_cons; [done | by apply Hgood2].
      * destruct Hres2 as (Hpre & Hbad & Hkey).
        split; [by apply prefix_app|]. split; [|done].
        intros Hall. apply Hbad. intros y Hy. apply Hall. by right.
    + rewrite (bind_Raise _ _ _ _ _ Hbx). simpl.
      destruct Hres1 as (Hpre & Hbad & Hkey).
      split; [done|]. exists rows1. split; [done|].
      split; [by apply prefix_app_r|]. split; [|done].
      intros Hall. apply Hbad, Hall. by left.
Qed.

Lemma emits_bind_silent {A} (I : state → Prop) (m : M A) (a : A) (f : A → M unit)
    expected good :
  silent I m a → emits I (f a) expected good → emits I (m ≫= f) expected good.
Proof.
  intros Hm Hf s Hs. destruct (Hm s Hs) as (s1 & Hrun & Hs1 & Hrows).
  rewrite (bind_Ok _ _ _ _ _ Hrun).
  destruct (Hf s1 Hs1) as (Hs2 & rows & Hrows2 & Hres).
  split; [done|]. exists rows. split; [by rewrite Hrows2, Hrows | done].
Qed.

Lemma emits_iff (I : state → Prop) (m : M unit) expected good good' :
  (good ↔ good') → emits I m expected good → emits I m expected good'.
Proof.
  intros Hiff Hm s Hs. destruct (Hm s Hs) as (Hs1 & rows & Hrows & Hres).
  split; [done|]. exists rows. split; [done|].
  destruct ((m s).1); [|rewrite <- Hiff]; naive_solver.
Qed.

Section join.
Context (cloud : Cloud) (arn store : string).
Context (um : gmap string (string * string)).
Context (gm : gmap string (string * string * list (string * string))).

Lemma walk_inv_append rows s :
  walk_inv cloud (arn, store) s → walk_inv cloud (arn, store) (append_records rows s).
Proof. by intros [Hw Hc]. Qed.

Lemma process_assignment_emits aid an ps pn pd a :
  emits (walk_inv cloud (arn, store))
    (process_assignment um gm aid an ps pn pd a)
    (assignment_rows um gm aid an ps pn pd a)
    (assignment_resolves um gm a).
Proof.
  intros s Hs. unfold assignment_rows, assignment_resolves.
  destruct (decide (PrincipalType a = "USER")) as [Hu|Hu].
  - assert (PrincipalType a ≠ "GROUP") as Hg by (rewrite Hu; done).
    destruct (um !! PrincipalId a) as [[u d]|] eqn:Hlook.
    + rewrite (process_assignment_user um gm aid an ps pn pd a u d s Hu Hlook).
      split; [by apply walk_inv_append|]. eexists. split; [done|]. simpl.
      split; [done|]. split; [by eexists | done].
    + rewrite (process_assignment_user_missing um gm aid an ps pn pd a s Hu Hlook).
      split; [done|]. exists []. split; [by rewrite app_nil_r|]. simpl.
      split; [done|]. split; [|by eexists].
      intros [H _]. destruct (H Hu) as [v Hv]. congruence.
  - destruct (decide (PrincipalType a = "GROUP")) as [Hg|Hg].
    + destruct (gm !! PrincipalId a) as [[[gn gd] ms]|] eqn:Hlook.
      * rewrite (process_assignment_group um gm aid an ps pn pd a gn gd ms s Hg Hlook).
        split; [by apply walk_inv_append|]. eexists. split; [done|]. simpl.
        split; [done|]. split; [done | by eexists].
      * rewrite (process_assignment_group_missing um gm aid an ps pn pd a s Hg Hlook).
        split; [done|]. exists []. split; [by rewrite app_nil_r|]. simpl.
        split; [done|]. split; [|by eexists].
        intros [_ H]. destruct (H Hg) as [v Hv]. congruence.
    + rewrite (process_assignment_other um gm aid an ps pn pd a s Hu Hg).
      split; [done|]. exists []. split; [by rewrite app_nil_r|]. simpl.
      split; [done|]. split; done.
Qed.

Lemma process_permission_set_emits aid an ps :
  emits (walk_inv cloud (arn, store))
    (process_permission_set cloud um gm aid an ps)
    (permission_set_rows cloud arn um gm aid an ps)
    (∀ a, a ∈ api_list_account_assignments cloud aid arn ps →
          assignment_resolves um gm a).
Proof.
  unfold process_permission_set, permission_set_rows.
  apply (emits_bind_silent _ _ (api_describe_permission_set cloud arn ps)).
  { intros s Hs.
    destruct (describe_permission_set_coherent cloud arn store ps s Hs)
      as (s' & Hrun & Hs' & Hrows & _).
    by exists s'. }
  apply (emits_bind_silent _ _ (api_list_account_assignments cloud aid arn ps)).
  { intros s Hs. exists s.
    split; [apply (generate_account_assignments_warm cloud arn store); by destruct Hs
           | done]. }
  apply (emits_for_each _ _ _
           (assignment_rows um gm aid an ps
              (ps_Name (api_describe_permission_set cloud arn ps))
              (default "" (ps_Description (api_describe_permission_set cloud arn ps))))
           (assignment_resolves um gm)).
  intros a _. apply process_assignment_emits.
Qed.

Lemma process_account_emits account :
  emits (walk_inv cloud (arn, store))
    (process_account cloud um gm account)
    (account_rows cloud arn um gm account)
    (∀ ps, ps ∈ api_list_permission_sets_provisioned_to_account cloud account.1 arn →
       ∀ a, a ∈ api_list_account_assignments cloud account.1 arn ps →
            assignment_resolves um gm a).
Proof.
  destruct account as [aid an]. unfold process_account, account_rows. simpl.
  apply (emits_bind_silent _ _ ()).
  { intros s Hs. eexists. split; [reflexivity|]. split; [|done]. by destruct Hs. }
  apply (emits_bind_silent _ _
           (api_list_permission_sets_provisioned_to_account cloud aid arn)).
  { intros s Hs. exists s.
    split; [apply (generate_permission_sets_for_account_warm cloud arn store);
            by destruct Hs
           | done]. }
  apply (emits_for_each _ _ _
           (permission_set_rows cloud arn um gm aid an)
           (λ ps, ∀ a, a ∈ api_list_account_assignments cloud aid arn ps →
                       assignment_resolves um gm a)).
  intros ps _. apply process_permission_set_emits.
Qed.

Lemma walk_emits :
  emits (walk_inv cloud (arn, store))
    (for_each ((λ account, (Id account, Name account)) <$> api_list_accounts cloud)
       (process_account cloud um gm))
    (report_rows cloud arn um gm)
    (all_resolve cloud arn um gm).
Proof.
  apply (emits_iff _ _ _
           (∀ account : string * string,
              account ∈ (λ account, (Id account, Name account)) <$> api_list_accounts cloud →
              ∀ ps, ps ∈ api_list_permission_sets_provisioned_to_account cloud
                           account.1 arn →
              ∀ a, a ∈ api_list_account_assignments cloud account.1 arn ps →
                   assignment_resolves um gm a)).
  - unfold all_resolve. split.
    + intros H account ps a Hacc Hps Ha.
      assert ((Id account, Name account)
              ∈ (λ account, (Id account, Name account)) <$> api_list_accounts cloud)
        as Hin by (apply list_elem_of_fmap; by exists account).
      exact (H _ Hin ps Hps a Ha).
    + intros H [aid an] [account [[= -> ->] Hacc]]%list_elem_of_fmap ps Hps a Ha.
      by apply (H account ps a).
  - apply (emits_for_each _ _ _ (account_rows cloud arn um gm)
             (λ account : string * string,
                ∀ ps, ps ∈ api_list_permission_sets_provisioned_to_account cloud
                             account.1 arn →
                ∀ a, a ∈ api_list_account_assignments cloud account.1 arn ps →
                     assignment_resolves um gm a)).
    intros account _. apply process_account_emits.
Qed.

Lemma write_report_emits s :
  walk_inv cloud (arn, store) s →
  ∃ rows,
    csv_rows (write_report cloud um gm s).2 = field_names :: rows
    ∧ match (write_report cloud um gm s).1 with
      | Ok _ => rows = report_rows cloud arn um gm ∧ all_resolve cloud arn um gm
      | Raise e =>
          rows `prefix_of` report_rows cloud arn um gm
          ∧ ¬ all_resolve cloud arn um gm ∧ ∃ k, e = KeyError k
      end.
Proof.
  intros Hs. unfold write_report.
  erewrite (bind_Ok open_csv) by reflexivity.
  erewrite (bind_Ok writeheader) by reflexivity.
  erewrite (bind_Ok (generate_accounts cloud)) by reflexivity.
  match goal with |- context [for_each ?l ?b ?s0] => set (s2 := s0) end.
  assert (walk_inv cloud (arn, store) s2) as Hs2 by (by destruct Hs).
  destruct (walk_emits s2 Hs2) as (_ & rows & Hrows & Hres).
  exists rows. split; [by rewrite Hrows | done].
Qed.

End join.

Lemma main_after_load cloud i rest um gm s1 :
  api_list_instances cloud = i :: rest →
  load_directory cloud initial_state = (Ok (um, gm), s1) →
  main cloud initial_state = write_report cloud um gm s1
  ∧ walk_inv cloud (InstanceArn i, IdentityStoreId i) s1.
Proof.
  intros Hi Hload. split.
  - unfold main. by rewrite (bind_Ok _ _ _ _ _ Hload).
  - destruct (load_directory_Ok cloud um gm s1 Hload) as (i' & rest' & Hi' & _ & -> & _).
    assert (i' = i) as -> by congruence.
    split; [done|]. intros k v Hin. by inversion Hin.
Qed.

(** X9. The report of a successful run is the header followed by the
    flattened join: for each account in listing order, for each of its
    permission sets in listing order, for each assignment in listing order,
    the record of the assigned user or one record per member of the assigned
    group, with the permission set's name and description as the describe
    API gives them. *)
Theorem successful_report_is_the_join cloud i rest um gm s1 s' :
  api_list_instances cloud = i :: rest →
  load_directory cloud initial_state = (Ok (um, gm), s1) →
  main cloud initial_state = (Ok (), s') →
  csv_rows s' = field_names :: report_rows cloud (InstanceArn i) um gm.
Proof.
  intros Hi Hload Hmain.
  destruct (main_after_load cloud i rest um gm s1 Hi Hload) as [Heq Hinv].
  destruct (write_report_emits cloud (InstanceArn i) (IdentityStoreId i) um gm s1 Hinv)
    as (rows & Hrows & Hres).
  rewrite <- Heq, Hmain in Hrows, Hres. simpl in *.
  destruct Hres as [-> _]. done.
Qed.

Lemma successful_report_is_the_join_witness :
  csv_rows (main prod_cloud initial_state).2
  = field_names :: report_rows prod_cloud "arn:instance" prod_user_map prod_group_map.
Proof.
  apply (successful_report_is_the_join prod_cloud
           {| IdentityStoreId := "d-1"; InstanceArn := "arn:instance" |} []
           prod_user_map prod_group_map
           (resolved_state ("arn:instance", "d-1") initial_state)).
  - reflexivity.
  - vm_compute. reflexivity.
  - vm_compute. reflexivity.
Defined.






(** X13. With a loadable directory and no account in the organization, the
    run returns normally, the report holds the header alone, and neither a
    describe call nor a progress line has been issued. *)
Theorem no_account_header_only cloud um gm s1 :
  load_directory cloud initial_state = (Ok (um, gm), s1) →
  api_list_accounts cloud = [] →
  ∃ s',
    main cloud initial_state = (Ok (), s')
    ∧ csv_rows s' = [ field_names ]
    ∧ describe_calls s' = [] ∧ stdout s' = [].
Proof.
  intros Hload Hacc.
  destruct (load_directory_Ok cloud um gm s1 Hload) as (i & rest & Hi & _ & -> & _).
  eexists. split.
  - unfold main. rewrite (bind_Ok _ _ _ _ _ Hload). unfold write_report.
    erewrite (bind_Ok open_csv) by reflexivity.
    erewrite (bind_Ok writeheader) by reflexivity.
    erewrite (bind_Ok (generate_accounts cloud)) by reflexivity.
    rewrite Hacc. reflexivity.
  - done.
Qed.

Lemma no_account_header_only_witness :
  ∃ s',
    main empty_org_cloud initial_state = (Ok (), s')
    ∧ csv_rows s' = [ field_names ]
    ∧ describe_calls s' = [] ∧ stdout s' = [].
Proof.
  apply (no_account_header_only empty_org_cloud prod_user_map prod_group_map
           (resolved_state ("arn:instance", "d-1") initial_state)).
  - vm_compute. reflexivity.
  - reflexivity.
Defined.

(** ** What every data record says *)

Lemma assignment_rows_columns um gm aid an ps pn pd a row :
  row ∈ assignment_rows um gm aid an ps pn pd a →
  column "ACCOUNT_ID" row = Some aid ∧ column "ACCOUNT_NAME" row = Some an
  ∧ column "PERM_ARN" row = Some ps ∧ column "PERMISSION" row = Some pn
  ∧ column "PERM_DESC" row = Some pd
  ∧ column "PRINCIPAL_TYPE" row = Some (PrincipalType a)
  ∧ (PrincipalType a = "USER" ∨ PrincipalType a = "GROUP").
Proof.
  unfold assignment_rows.
  destruct (decide (PrincipalType a = "USER")) as [Hu|Hu].
  - destruct (um !! PrincipalId a) as [v|]; [|by intros H; inversion H].
    intros ->%list_elem_of_singleton. rewrite Hu. repeat split; try done. by left.
  - destruct (decide (PrincipalType a = "GROUP")) as [Hg|Hg];
      [|by intros H; inversion H].
    destruct (gm !! PrincipalId a) as [[[gn gd] ms]|]; [|by intros H; inversion H].
    intros [m [-> _]]%list_elem_of_fmap. rewrite Hg. repeat split; try done. by right.
Qed.

Lemma report_rows_columns cloud arn um gm row :
  row ∈ report_rows cloud arn um gm →
  ∃ account ps a,
    account ∈ api_list_accounts cloud
    ∧ ps ∈ api_list_permission_sets_provisioned_to_account cloud (Id account) arn
    ∧ a ∈ api_list_account_assignments cloud (Id account) arn ps
    ∧ row ∈ assignment_rows um gm (Id account) (Name account) ps
              (ps_Name (api_describe_permission_set cloud arn ps))
              (default "" (ps_Description (api_describe_permission_set cloud arn ps)))
              a.
Proof.
  unfold report_rows.
  intros [[aid an] [Hrow [account [[= -> ->] Hacc]]%list_elem_of_fmap]]%list_elem_of_bind.
  unfold account_rows in Hrow. simpl in Hrow.
  apply list_elem_of_bind in Hrow as [ps [Hrow Hps]].
  unfold permission_set_rows in Hrow.
  apply list_elem_of_bind in Hrow as [a [Hrow Ha]].
  by exists account, ps, a.
Qed.

(** X14. Whatever the outcome of a run, every data record of the file names
    a listed account, a permission set provisioned to that account, the name
    and the description (or the empty string) that the describe API gives for
    that permission set, and the principal type USER or GROUP of one of its
    assignments. *)
Theorem data_records_describe_their_assignment cloud i rest row :
  api_list_instances cloud = i :: rest →
  row ∈ drop 1 (csv_rows (main cloud initial_state).2) →
  ∃ account ps a,
    account ∈ api_list_accounts cloud
    ∧ ps ∈ api_list_permission_sets_provisioned_to_account cloud (Id account)
             (InstanceArn i)
    ∧ a ∈ api_list_account_assignments cloud (Id account) (InstanceArn i) ps
    ∧ column "ACCOUNT_ID" row = Some (Id account)
    ∧ column "ACCOUNT_NAME" row = Some (Name account)
    ∧ column "PERM_ARN" row = Some ps
    ∧ column "PERMISSION" row
      = Some (ps_Name (api_describe_permission_set cloud (InstanceArn i) ps))
    ∧ column "PERM_DESC" row
      = Some (default ""
                (ps_Description (api_describe_permission_set cloud (InstanceArn i) ps)))
    ∧ column "PRINCIPAL_TYPE" row = Some (PrincipalType a)
    ∧ (PrincipalType a = "USER" ∨ PrincipalType a = "GROUP").
Proof.
  intros Hi Hrow.
  destruct (main_cases cloud)
    as [[Hno _]|(i' & rest' & Hi' & [[k Hmain]|(gm & Hload & Hmain)])].
  - congruence.
  - rewrite Hmain in Hrow. by inversion Hrow.
  - assert (i' = i) as -> by congruence.
    destruct (main_after_load cloud i rest' _ gm _ Hi' Hload) as [_ Hinv].
    destruct (write_report_emits cloud (InstanceArn i) (IdentityStoreId i)
                (build_user_map (api_list_users cloud (IdentityStoreId i))) gm _ Hinv)
      as (rows & Hrows & Hres).
    rewrite <- Hmain in Hrows, Hres. rewrite Hrows in Hrow. simpl in Hrow.
    assert (row ∈ report_rows cloud (InstanceArn i)
                    (build_user_map (api_list_users cloud (IdentityStoreId i))) gm)
      as Hin.
    { destruct ((main cloud initial_state).1) as [[]|e].
      - destruct Hres as [<- _]. by rewrite drop_0 in Hrow.
      - destruct Hres as ([tail ->] & _). rewrite drop_0 in Hrow.
        apply elem_of_app. by left. }
    destruct (report_rows_columns _ _ _ _ _ Hin) as (account & ps & a & Ha & Hps & Hasg & Hr).
    exists account, ps, a.
    destruct (assignment_rows_columns _ _ _ _ _ _ _ _ _ Hr)
      as (H1 & H2 & H3 & H4 & H5 & H6 & H7).
    done.
Qed.

Lemma data_records_describe_their_assignment_witness :
  ∃ account ps a,
    account ∈ api_list_accounts prod_cloud
    ∧ ps ∈ api_list_permission_sets_provisioned_to_account prod_cloud (Id account)
             "arn:instance"
    ∧ a ∈ api_list_account_assignments prod_cloud (Id account) "arn:instance" ps
    ∧ Some "Admin"
      = Some (ps_Name (api_describe_permission_set prod_cloud "arn:instance" ps)).
Proof.
  destruct (data_records_describe_their_assignment prod_cloud
              {| IdentityStoreId := "d-1"; InstanceArn := "arn:instance" |} []
              [ "111"; "Prod"; "ps-1"; "Admin"; "full access"; "USER"; ""; "";
                "bob"; "Bob B" ])
    as (account & ps & a & Hacc & Hps & Ha & _ & _ & _ & Hname & _).
  - reflexivity.
  - vm_compute. right. right. left.
  - exists account, ps, a. split; [exact Hacc|]. split; [exact Hps|].
    split; [exact Ha | exact Hname].
Defined.

(** ** Progress lines and describe calls along the walk *)

Section bodies.
Context (cloud : Cloud) (arn store : string) (I : state → Prop).
Context (um : gmap string (string * string)).
Context (gm : gmap string (string * string * list (string * string))).
Hypothesis I_warm : ∀ s, I s → warm (arn, store) s.
Hypothesis I_describe : ∀ s ps, I s → I (describe_permission_set cloud ps s).2.
Hypothesis I_assignment :
  ∀ s aid an ps pn pd a, I s → I (process_assignment um gm aid an ps pn pd a s).2.

Lemma process_permission_set_invariant aid an ps s :
  I s → I (process_permission_set cloud um gm aid an ps s).2.
Proof.
  intros Hs. unfold process_permission_set.
  apply bind_invariant; [by apply I_describe|].
  intros info s1 _ Hs1.
  rewrite (bind_Ok _ _ _ _ _
             (generate_account_assignments_warm cloud arn store _ _ _ (I_warm _ Hs1))).
  apply for_each_invariant; [|done].
  intros a s2 _ Hs2. by apply I_assignment.
Qed.

Lemma permission_sets_loop_invariant aid an s :
  I s →
  I ((permission_sets ← generate_permission_sets_for_account cloud aid;
      for_each permission_sets (process_permission_set cloud um gm aid an)) s).2.
Proof.
  intros Hs.
  rewrite (bind_Ok _ _ _ _ _
             (generate_permission_sets_for_account_warm cloud arn store _ _
                (I_warm _ Hs))).
  apply for_each_invariant; [|done].
  intros ps s1 _ Hs1. by apply process_permission_set_invariant.
Qed.

End bodies.

Lemma for_each_established {A} (I : state → Prop) (P : A → state → Prop)
    (l : list A) (body : A → M unit) :
  (∀ x s, x ∈ l → I s → I (body x s).2) →
  (∀ x s s', x ∈ l → I s → body x s = (Ok (), s') → P x s') →
  (∀ x y s, x ∈ l → I s → P y s → P y (body x s).2) →
  ∀ s s', I s → for_each l body s = (Ok (), s') →
    I s' ∧ (∀ y, P y s → P y s') ∧ ∀ x, x ∈ l → P x s'.
Proof.
  induction l as [|x l IH]; intros HI Hest Hstab s s' Hs Hrun.
  - inversion Hrun; subst. split; [done|]. split; [done|].
    intros x Hx. by inversion Hx.
  - simpl in Hrun. unfold mbind, M_mbind, M_bind in Hrun.
    destruct (body x s) as [[[]|e] s1] eqn:Hbx; [|congruence].
    assert (I s1) as Hs1.
    { pose proof (HI x s (list_elem_of_here x l) Hs) as H. by rewrite Hbx in H. }
    assert (P x s1) as Hx by (apply (Hest x s s1); [by left | done..]).
    assert (∀ y, P y s → P y s1) as Hkeep.
    { intros y Hy. pose proof (Hstab x y s (list_elem_of_here x l) Hs Hy) as H.
      by rewrite Hbx in H. }
    destruct (IH (λ z s0 Hz, HI z s0 (list_elem_of_further _ _ _ Hz))
                 (λ z s0 s0' Hz, Hest z s0 s0' (list_elem_of_further _ _ _ Hz))
                 (λ z w s0 Hz, Hstab z w s0 (list_elem_of_further _ _ _ Hz))
                 s1 s' Hs1 Hrun) as (Hs' & Hkeep' & Hrest).
    split; [done|]. split; [by intros y Hy; apply Hkeep', Hkeep|].
    intros z [->|Hz]%elem_of_cons; [by apply Hkeep' | by apply Hrest].
Qed.

Section progress.
Context (cloud : Cloud) (arn store : string).
Context (um : gmap string (string * string)).
Context (gm : gmap string (string * string * list (string * string))).

Lemma process_assignment_walk_inv aid an ps pn pd a s :
  walk_inv cloud (arn, store) s →
  walk_inv cloud (arn, store) (process_assignment um gm aid an ps pn pd a s).2.
Proof.
  intros Hs.
  destruct (process_assignment_appends um gm aid an ps pn pd a s) as (rows & -> & _).
  by apply walk_inv_append.
Qed.

Lemma process_account_stdout account s :
  walk_inv cloud (arn, store) s →
  walk_inv cloud (arn, store) (process_account cloud um gm account s).2
  ∧ stdout (process_account cloud um gm account s).2
    = stdout s ++ [ progress_line account ].
Proof.
  intros Hs. destruct account as [aid an]. unfold process_account.
  apply (bind_invariant
           (λ s', walk_inv cloud (arn, store) s'
                  ∧ stdout s' = stdout s ++ [ progress_line (aid, an) ])).
  { split; [by destruct Hs | done]. }
  intros _ s1 _ Hs1.
  apply (permission_sets_loop_invariant cloud arn store
           (λ s', walk_inv cloud (arn, store) s'
                  ∧ stdout s' = stdout s ++ [ progress_line (aid, an) ]) um gm);
    [..|done].
  - by intros s0 [[Hw _] _].
  - intros s0 ps [Hinv Hout].
    destruct (describe_permission_set_coherent cloud arn store ps s0 Hinv)
      as (s' & -> & Hinv' & _ & _ & Hout' & _).
    split; [done|]. simpl. by rewrite Hout'.
  - intros s0 aid' an' ps pn pd a [Hinv Hout].
    split; [by apply process_assignment_walk_inv|].
    destruct (process_assignment_frame um gm aid' an' ps pn pd a s0)
      as (_ & _ & _ & _ & _ & ->).
    done.
Qed.

Lemma accounts_loop_stdout (accounts : list (string * string)) s :
  walk_inv cloud (arn, store) s →
  ∃ n,
    n ≤ length accounts
    ∧ stdout (for_each accounts (process_account cloud um gm) s).2
      = stdout s ++ (progress_line <$> take n accounts)
    ∧ match (for_each accounts (process_account cloud um gm) s).1 with
      | Ok _ => n = length accounts
      | Raise _ => 0 < n
      end.
Proof.
  revert s. induction accounts as [|account accounts IH]; intros s Hs.
  - exists 0. simpl. by rewrite app_nil_r.
  - destruct (process_account_stdout account s Hs) as [Hs1 Hout1].
    change (for_each (account :: accounts) (process_account cloud um gm))
      with (process_account cloud um gm account
              ≫= λ _, for_each accounts (process_account cloud um gm)).
    destruct (process_account cloud um gm account s) as [[[]|e] s1] eqn:Hrun;
      simpl in Hs1, Hout1.
    + rewrite (bind_Ok _ _ _ _ _ Hrun).
      destruct (IH s1 Hs1) as (n & Hn & Hout & Hres).
      exists (S n). split; [simpl; lia|].
      split; [rewrite Hout, Hout1; simpl; by rewrite <- app_assoc|].
      destruct ((for_each accounts (process_account cloud um gm) s1).1);
        simpl; lia.
    + rewrite (bind_Raise _ _ _ _ _ Hrun). simpl.
      exists 1. split; [lia|]. split; [by destruct accounts | lia].
Qed.

End progress.

(** X15. The lines printed by a run are the progress lines, in listing
    order, of the accounts the walk has entered: all accounts when the run
    returns normally, and at least the first one when it aborts during the
    walk. Nothing else is ever printed. *)
Theorem progress_lines_follow_accounts cloud :
  ∃ n,
    n ≤ length (api_list_accounts cloud)
    ∧ stdout (main cloud initial_state).2
      = (λ account,
           "Processing account " +:+ Id account +:+ ": " +:+ Name account +:+ " ...")
        <$> take n (api_list_accounts cloud)
    ∧ match (main cloud initial_state).1 with
      | Ok _ => n = length (api_list_accounts cloud)
      | Raise _ => True
      end.
Proof.
  destruct (main_cases cloud)
    as [[_ (s' & Hmain & _ & _ & _ & Hout & _)]
       |(i & rest & Hi & [[k Hmain]|(gm & Hload & Hmain)])].
  - exists 0. rewrite Hmain. simpl. rewrite Hout. split; [lia | done].
  - exists 0. rewrite Hmain. simpl. split; [lia | done].
  - destruct (main_after_load cloud i rest _ gm _ Hi Hload) as [_ Hinv].
    rewrite Hmain. unfold write_report.
    erewrite (bind_Ok open_csv) by reflexivity.
    erewrite (bind_Ok writeheader) by reflexivity.
    erewrite (bind_Ok (generate_accounts cloud)) by reflexivity.
    match goal with |- context [for_each ?l ?b ?s0] => set (s2 := s0) end.
    assert (walk_inv cloud (InstanceArn i, IdentityStoreId i) s2) as Hs2
      by (by destruct Hinv).
    destruct (accounts_loop_stdout cloud (InstanceArn i) (IdentityStoreId i)
                (build_user_map (api_list_users cloud (IdentityStoreId i))) gm
                ((λ account, (Id account, Name account)) <$> api_list_accounts cloud)
                s2 Hs2) as (n & Hn & Hout & Hres).
    rewrite length_fmap in Hn, Hres.
    exists n. split; [done|]. split.
    + rewrite Hout. simpl. rewrite <- fmap_take, <- list_fmap_compose. done.
    + destruct (_.1); [done | done].
Qed.

Section logged.
Context (cloud : Cloud) (arn store : string).
Context (um : gmap string (string * string)).
Context (gm : gmap string (string * string * list (string * string))).

Lemma describe_permission_set_logged log ps s :
  logged cloud arn store log s →
  logged cloud arn store ((arn, ps) :: log) (describe_permission_set cloud ps s).2.
Proof.
  intros (Hinv & Hcached & Hlog).
  destruct (describe_permission_set_coherent cloud arn store ps s Hinv)
    as (s' & Hrun & Hinv' & _).
  split; [by rewrite Hrun|]. clear Hrun Hinv' s'.
  rewrite (describe_permission_set_warm cloud arn store ps s (proj1 Hinv)).
  destruct (cache_get ps (ps_cache s)) as [v|] eqn:Hget; cbn [snd].
  - unfold set_ps_cache; cbn [ps_cache describe_calls]. rewrite cache_touch_keys.
    apply cache_get_Some in Hget. split.
    + intros k [->|[_ Hk]%list_elem_of_filter]%elem_of_cons; by apply Hcached.
    + intros c [->|Hc]%elem_of_cons; [by apply Hcached | by apply Hlog].
  - cbn [ps_cache describe_calls].
    destruct (cache_store_miss ps (api_describe_permission_set cloud arn ps)
                (ps_cache s) Hget) as (c' & -> & Hsub & _).
    split.
    + intros k. rewrite fmap_cons. cbn [fst].
      intros [->|Hk]%elem_of_cons; apply elem_of_app; [right; by left|left].
      apply Hcached. apply list_elem_of_fmap in Hk as [[k' v'] [-> Hin]].
      apply list_elem_of_fmap. exists (k', v'). split; [done | by apply Hsub].
    + intros c [->|Hc]%elem_of_cons; apply elem_of_app;
        [right; by left | left; by apply Hlog].
Qed.

Lemma logged_weaken log log' s :
  (∀ c, c ∈ log' → c ∈ log) →
  logged cloud arn store log s → logged cloud arn store log' s.
Proof.
  intros Hsub (Hinv & Hcached & Hlog). split; [done|]. split; [done|].
  intros c Hc. by apply Hlog, Hsub.
Qed.

Lemma process_assignment_logged log aid an ps pn pd a s :
  logged cloud arn store log s →
  logged cloud arn store log (process_assignment um gm aid an ps pn pd a s).2.
Proof.
  intros (Hinv & Hcached & Hlog).
  split; [by apply process_assignment_walk_inv|].
  destruct (process_assignment_frame um gm aid an ps pn pd a s)
    as (_ & -> & _ & -> & _).
  done.
Qed.

Lemma process_permission_set_logged log aid an ps s :
  logged cloud arn store log s →
  logged cloud arn store ((arn, ps) :: log)
    (process_permission_set cloud um gm aid an ps s).2.
Proof.
  intros Hs. unfold process_permission_set.
  apply (bind_invariant (logged cloud arn store ((arn, ps) :: log)));
    [by apply describe_permission_set_logged|].
  intros info s1 _ Hs1.
  assert (warm (arn, store) s1) as Hw by (by destruct Hs1 as [[Hw _] _]).
  rewrite (bind_Ok _ _ _ _ _ (generate_account_assignments_warm cloud arn store _ _ _ Hw)).
  apply for_each_invariant; [|done].
  intros a s2 _ Hs2. by apply process_assignment_logged.
Qed.

Lemma process_account_logged log account s s' :
  logged cloud arn store log s →
  logged cloud arn store log (process_account cloud um gm account s).2
  ∧ (process_account cloud um gm account s = (Ok (), s') →
     ∀ ps, ps ∈ api_list_permission_sets_provisioned_to_account cloud account.1 arn →
           (arn, ps) ∈ describe_calls s').
Proof.
  intros Hs. destruct account as [aid an]. unfold process_account.
  erewrite (bind_Ok (print _)) by reflexivity.
  match goal with |- context [(_ ≫= _) ?s0] => set (s1 := s0) end.
  assert (logged cloud arn store log s1) as Hs1
    by (by destruct Hs as ((Hw & Hc) & Hcd & Hl)).
  assert (warm (arn, store) s1) as Hw by (by destruct Hs1 as [[Hw _] _]).
  rewrite (bind_Ok _ _ _ _ _
             (generate_permission_sets_for_account_warm cloud arn store _ _ Hw)).
  split.
  - apply for_each_invariant; [|done].
    intros ps s2 _ Hs2.
    apply (logged_weaken ((arn, ps) :: log)); [by intros c Hc; right|].
    by apply process_permission_set_logged.
  - intros Hrun. simpl.
    destruct (for_each_established (logged cloud arn store log)
                (λ ps s0, (arn, ps) ∈ describe_calls s0)
                (api_list_permission_sets_provisioned_to_account cloud aid arn)
                (process_permission_set cloud um gm aid an)) with (s := s1) (s' := s')
      as (_ & _ & Hall); [..|done].
    + intros ps s2 _ Hs2.
      apply (logged_weaken ((arn, ps) :: log)); [by intros c Hc; right|].
      by apply process_permission_set_logged.
    + intros ps s2 s2' _ Hs2 Hbody.
      pose proof (process_permission_set_logged log aid an ps s2 Hs2) as (_ & _ & Hl).
      rewrite Hbody in Hl. apply Hl. by left.
    + intros ps c s2 _ Hs2 Hc.
      assert (logged cloud arn store ((arn, c) :: log) s2) as Hs2'.
      { destruct Hs2 as (Hi & Hcd & Hl). split; [done|]. split; [done|].
        intros c' [->|Hc']%elem_of_cons; [done | by apply Hl]. }
      pose proof (process_permission_set_logged ((arn, c) :: log) aid an ps s2 Hs2')
        as (_ & _ & Hl).
      apply Hl. right. by left.
    + done.
    + done.
Qed.

Lemma accounts_loop_logged (accounts : list (string * string)) s s' :
  logged cloud arn store [] s →
  for_each accounts (process_account cloud um gm) s = (Ok (), s') →
  ∀ account ps,
    account ∈ accounts →
    ps ∈ api_list_permission_sets_provisioned_to_account cloud account.1 arn →
    (arn, ps) ∈ describe_calls s'.
Proof.
  intros Hs Hrun account ps Hacc Hps.
  destruct (for_each_established (logged cloud arn store [])
              (λ account s0,
                 ∀ ps, ps ∈ api_list_permission_sets_provisioned_to_account cloud
                              account.1 arn →
                       (arn, ps) ∈ describe_calls s0)
              accounts (process_account cloud um gm)) with (s := s) (s' := s')
    as (_ & _ & Hall); [..|by apply (Hall account)].
  - intros x s0 _ Hs0. by apply (process_account_logged [] x s0 s0).
  - intros x s0 s0' _ Hs0 Hbody. by apply (process_account_logged [] x s0 s0').
  - intros x y s0 _ Hs0 Hy ps' Hps'.
    assert (logged cloud arn store [(arn, ps')] s0) as Hs0'.
    { destruct Hs0 as (Hi & Hcd & Hl). split; [done|]. split; [done|].
      intros c ->%list_elem_of_singleton. by apply Hy. }
    destruct (process_account_logged [(arn, ps')] x s0 s0 Hs0') as [(_ & _ & Hl) _].
    apply Hl. by left.
  - done.
  - done.
Qed.

End logged.

(** X16. In a run that returns normally every permission set provisioned
    to a listed account has been described at least once, and exactly once
    when the provisioned permission sets comprise at most 128 distinct
    ARNs. *)
Theorem every_provisioned_arn_described cloud i rest s' ps :
  api_list_instances cloud = i :: rest →
  main cloud initial_state = (Ok (), s') →
  ps ∈ provisioned_arns cloud (InstanceArn i) →
  1 ≤ describe_count ps s'
  ∧ (length (remove_dups (provisioned_arns cloud (InstanceArn i))) ≤ maxsize →
     describe_count ps s' = 1).
Proof.
  intros Hi Hmain Hps.
  destruct (main_cases cloud)
    as [[Hno _]|(i' & rest' & Hi' & [[k Hmain']|(gm & Hload & Hmain')])];
    [congruence..|].
  assert (i' = i) as -> by congruence.
  destruct (main_after_load cloud i rest' _ gm _ Hi' Hload) as [_ Hinv].
  rewrite Hmain in Hmain'.
  assert (1 ≤ describe_count ps s') as Hone.
  { unfold write_report in Hmain'.
    erewrite (bind_Ok open_csv) in Hmain' by reflexivity.
    erewrite (bind_Ok writeheader) in Hmain' by reflexivity.
    erewrite (bind_Ok (generate_accounts cloud)) in Hmain' by reflexivity.
    apply list_elem_of_bind in Hps as (account & Hps & Hacc).
    assert ((InstanceArn i, ps) ∈ describe_calls s') as Hin.
    { eapply (accounts_loop_logged cloud (InstanceArn i) (IdentityStoreId i) _ gm
                _ _ s' _ (eq_sym Hmain') (Id account, Name account) ps); [|done].
      apply list_elem_of_fmap. by exists account. }
    unfold describe_count.
    assert ((InstanceArn i, ps)
            ∈ filter (λ c : string * string, c.2 = ps) (describe_calls s')) as Hf
      by (by apply list_elem_of_filter).
    destruct (filter _ (describe_calls s')); [by inversion Hf | simpl; lia]. }
  split; [done|]. intros Hcap.
  assert (cache_inv (InstanceArn i) (provisioned_arns cloud (InstanceArn i))
            (resolved_state (InstanceArn i, IdentityStoreId i) initial_state)) as Hstart.
  { split; [constructor|]. split; [|split; [constructor|]].
    - intros k. simpl. split; intros H; by inversion H.
    - intros c H. by inversion H. }
  pose proof (write_report_cache_inv cloud (InstanceArn i) (IdentityStoreId i)
                (build_user_map (api_list_users cloud (IdentityStoreId i))) gm
                (resolved_state (InstanceArn i, IdentityStoreId i) initial_state)
                Hcap eq_refl Hstart) as Hfinal.
  rewrite <- Hmain' in Hfinal. simpl in Hfinal.
  pose proof (cache_inv_describe_count _ _ _ ps Hfinal). lia.
  Unshelve.
  split; [by destruct Hinv|]. split; [|by intros c Hc; inversion Hc].
  intros k Hk. by inversion Hk.
Qed.

Lemma every_provisioned_arn_described_witness :
  describe_count "ps-1" (main prod_cloud initial_state).2 = 1.
Proof.
  destruct (every_provisioned_arn_described prod_cloud
              {| IdentityStoreId := "d-1"; InstanceArn := "arn:instance" |} []
              (main prod_cloud initial_state).2 "ps-1") as [_ Hexact].
  - reflexivity.
  - vm_compute. reflexivity.
  - vm_compute. left.
  - apply Hexact. vm_compute. lia.
Defined.
